(** * TCP-to-HTTP: the incremental request parser and the header store

    A shallow embedding of [internal/headers/headers.go] and of the request
    parser ([package request]: [parseRequestLine], [parse], [RequestFromReader]),
    followed by the properties of the specification that concern them.

    Conventions of the embedding:
    - a Go [[]byte] is a [list ascii] (one [ascii] per byte), a Go [string] is
      a Rocq [string]; the conversions [string(b)] and [[]byte(s)] are
      [to_string] and [to_bytes];
    - a Go [map[string]string] is a [gmap string string];
    - a method with a pointer receiver returns the updated receiver next to
      its results: [(h', results)];
    - Go's multiple results [(n, done, err)] are tuples, with [err : option
      error] ([None] is [nil]);
    - the body of a loop [for { ... }] is a function of its own
      ([Parse_iter], [parse_iter]) that says whether the loop goes round
      again, and the loop is a [Fixpoint] on a fuel argument; running out of
      fuel is the separate outcome [NoFuel], which [Parse] never produces
      ([ParseFacts.Parse_returns]) and [parse] never produces on a request
      it can be called on ([RequestFacts.parse_returns]);
    - a panic is the outcome [Panic]. *)

From Stdlib Require Import ZArith Ascii String List Lia Bool.
From stdpp Require Import gmap strings list.

Open Scope Z_scope.
Open Scope nat_scope.

(** ** Bytes and strings *)

Abbreviation bytes := (list ascii).

Definition to_bytes (s : string) : bytes := list_ascii_of_string s.
Definition to_string (b : bytes) : string := string_of_list_ascii b.

Definition CR : ascii := "013"%char.
Definition LF : ascii := "010"%char.

(** Outcome of running a piece of Go code: it returns, it panics, or the
    model ran out of fuel. *)
Inductive exec (A : Type) : Type :=
| Return (a : A)
| Panic (msg : string)
| NoFuel.
Arguments Return {A} a.
Arguments Panic {A} msg.
Arguments NoFuel {A}.

(** What one pass through the body of a [for] loop does: go round again
    with the new value of the loop's variable [read], or leave the function
    with its results (a [return], or a [break] followed by the final
    [return]). *)
Inductive step (A : Type) : Type :=
| Again (read : nat)
| Stop (a : A).
Arguments Again {A} read.
Arguments Stop {A} a.

(** The error values of the two packages, and the errors of a stream. *)
Inductive error : Type :=
| ERROR_MALFORMED_REQUEST_LINE
| ERROR_UNSUPPORTED_HTTP_VERSION
| ERROR_REQUEST_IN_ERROR_STATE
| ErrMalformedHeaderLine      (* fmt.Errorf("malformed header line!") *)
| ErrMalformedFieldName       (* fmt.Errorf("malformed header field name!") *)
| ErrMalformedHeaderName      (* fmt.Errorf("malformed header name") *)
| EOF                         (* io.EOF *)
| ErrStream (code : nat).     (* any other error of the byte stream *)

(** ** The functions of Go's [bytes], [strings] and [strconv] that the code calls *)

Module GoLib.

(** [bytes.HasPrefix] *)
Fixpoint HasPrefix (s prefix : bytes) {struct prefix} : bool :=
  match prefix, s with
  | [], _ => true
  | p :: prefix', c :: s' => Ascii.eqb c p && HasPrefix s' prefix'
  | _ :: _, [] => false
  end.

(** [bytes.HasSuffix] *)
Definition HasSuffix (s suffix : bytes) : bool :=
  HasPrefix (rev s) (rev suffix).

(** [bytes.Index]: the index of the first instance of [sep] in [s];
    Go's [-1] is [None]. *)
Fixpoint Index (s sep : bytes) : option nat :=
  if HasPrefix s sep then Some 0
  else match s with
       | [] => None
       | _ :: s' => option_map S (Index s' sep)
       end.

(** The loop of [bytes.genSplit] for a non-empty separator: cut at the
    first [sep], at most [k] times, and keep what is left as the last
    piece. *)
Fixpoint genSplit (k : nat) (s sep : bytes) : list bytes :=
  match k with
  | 0 => [s]
  | S k' =>
    match Index s sep with
    | None => [s]
    | Some m => firstn m s :: genSplit k' (skipn (m + length sep) s) sep
    end
  end.

(** [bytes.Split(s, sep)] cuts at every [sep]: Go runs the loop
    [Count(s, sep)] times, after which [Index] finds nothing; no more than
    [len(s)] cuts are ever possible. *)
Definition Split (s sep : bytes) : list bytes := genSplit (length s) s sep.

(** [bytes.SplitN(s, sep, n)] for [n >= 0]: at most [n] pieces. *)
Definition SplitN (s sep : bytes) (n : nat) : list bytes :=
  match n with
  | 0 => []
  | S k => genSplit k s sep
  end.

(** [bytes.TrimSpace] on its ASCII path: the white space of Go's
    [asciiSpace] table (tab, LF, VT, FF, CR, space) is removed at both
    ends. Go leaves that path at a byte of 128 or more, where it goes on
    with [unicode.IsSpace]; the model is that of Go on the inputs without
    such a byte ([Notions.ascii_bytes]). *)
Fixpoint TrimLeft (s : bytes) : bytes :=
  match s with
  | c :: s' => if Ascii.is_space c then TrimLeft s' else s
  | [] => []
  end.

Definition TrimSpace (s : bytes) : bytes :=
  rev (TrimLeft (rev (TrimLeft s))).

(** [strings.ToLower] on its ASCII path: the letters [A-Z] are moved to
    [a-z], every other byte is kept. Go maps the letters outside ASCII as
    well, and a byte that is no UTF-8 to U+FFFD; the model is that of Go on
    the strings without a byte of 128 or more ([Notions.ascii_only]). *)
Definition lower (c : ascii) : ascii :=
  let n := nat_of_ascii c in
  if (65 <=? n) && (n <=? 90) then ascii_of_nat (n + 32) else c.

Fixpoint ToLower (s : string) : string :=
  match s with
  | EmptyString => EmptyString
  | String c s' => String (lower c) (ToLower s')
  end.

(** [strconv.Atoi] with a 64-bit [int]: an optional sign, then one or more
    decimal digits, and a value that fits the type; anything else is an
    error ([None]). *)
Definition digit (c : ascii) : option Z :=
  let n := nat_of_ascii c in
  if (48 <=? n) && (n <=? 57) then Some (Z.of_nat (n - 48)) else None.

Fixpoint digits (acc : Z) (s : bytes) : option Z :=
  match s with
  | [] => Some acc
  | c :: s' =>
    match digit c with
    | Some d => digits (10 * acc + d)%Z s'
    | None => None
    end
  end.

Definition minInt : Z := (- 2 ^ 63)%Z.
Definition maxInt : Z := (2 ^ 63 - 1)%Z.

Definition in_range (z : Z) : option Z :=
  if ((minInt <=? z) && (z <=? maxInt))%Z then Some z else None.

Definition Atoi (s : string) : option Z :=
  match to_bytes s with
  | [] => None
  | c :: s' =>
    if Ascii.eqb c "-" then
      match s' with
      | [] => None
      | _ => z ← digits 0 s'; in_range (- z)
      end
    else if Ascii.eqb c "+" then
      match s' with
      | [] => None
      | _ => z ← digits 0 s'; in_range z
      end
    else z ← digits 0 (c :: s'); in_range z
  end.

(** Go's [int] subtraction wraps around at 64 bits. *)
Definition wrap (z : Z) : Z := ((z - minInt) mod 2 ^ 64 + minInt)%Z.

End GoLib.

(** ** [package headers] *)

Module headers.
Import GoLib.

Definition isToken (str : bytes) : bool :=
  forallb (fun char =>
    let n := nat_of_ascii char in
    if (97 <=? n) && (n <=? 122) then true        (* 'a' .. 'z' *)
    else if (65 <=? n) && (n <=? 90) then true    (* 'A' .. 'Z' *)
    else if (48 <=? n) && (n <=? 57) then true    (* '0' .. '9' *)
    else if existsb (Ascii.eqb char)
              (to_bytes "!#$%&'*+-.^_`|~") then true
    else false) str.

Definition rn : bytes := [CR; LF].

Definition parseHeader (fieldLine : bytes) : string * string * option error :=
  match SplitN fieldLine (to_bytes ":") 2 with
  | [fieldName; value] =>
    let fieldValue := TrimSpace value in
    if HasSuffix fieldName (to_bytes " ")
    then (""%string, ""%string, Some ErrMalformedFieldName)
    else (to_string fieldName, to_string fieldValue, None)
  | _ => (""%string, ""%string, Some ErrMalformedHeaderLine)
  end.

Record Headers : Type := mkHeaders { headers : gmap string string }.

Definition NewHeaders : Headers := {| headers := ∅ |}.

(** [Get] returns [(str, ok)]; the pair is an [option]. *)
Definition Get (h : Headers) (name : string) : option string :=
  headers h !! ToLower name.

Definition Replace (h : Headers) (name value : string) : Headers :=
  let name := ToLower name in
  {| headers := <[name := value]> (headers h) |}.

(** [Delete], of the later revision of this file that [cmd/httpServer]
    is written against. *)
Definition Delete (h : Headers) (name : string) : Headers :=
  let name := ToLower name in
  {| headers := delete name (headers h) |}.

(** [Set]; [fmt.Sprintf("%s,%s", v, value)] is [v +:+ "," +:+ value]. *)
Definition Set_ (h : Headers) (name value : string) : Headers :=
  let name := ToLower name in
  match headers h !! name with
  | Some v => {| headers := <[name := (v +:+ "," +:+ value)%string]> (headers h) |}
  | None => {| headers := <[name := value]> (headers h) |}
  end.

(** The body of the loop of [Parse]; [read] is the local variable of that
    name and [data[read:]] is [skipn read data]. *)
Definition Parse_iter (h : Headers) (data : bytes) (read : nat)
  : Headers * step (nat * bool * option error) :=
  match Index (skipn read data) rn with
  | None => (h, Stop (read, false, None))
  | Some 0 => (h, Stop (read + length rn, true, None))
  | Some idx =>
    match parseHeader (firstn idx (skipn read data)) with
    | (_, _, Some err) => (h, Stop (0, false, Some err))
    | (fieldName, fieldValue, None) =>
      if negb (isToken (to_bytes fieldName))
      then (h, Stop (0, false, Some ErrMalformedHeaderName))
      else (Set_ h fieldName fieldValue, Again (read + (idx + length rn)))
    end
  end.

Fixpoint Parse_loop (fuel : nat) (h : Headers) (data : bytes) (read : nat)
  : Headers * exec (nat * bool * option error) :=
  match fuel with
  | 0 => (h, NoFuel)
  | S fuel' =>
    match Parse_iter h data read with
    | (h', Again read') => Parse_loop fuel' h' data read'
    | (h', Stop res) => (h', Return res)
    end
  end.

Definition Parse (h : Headers) (data : bytes)
  : Headers * exec (nat * bool * option error) :=
  Parse_loop (S (length data)) h data 0.

End headers.

(** ** [package request] *)

Module request.
Import GoLib.
Export headers.

Inductive parseState : Type :=
| StateInit | StateHeader | StateBody | StateDone | StateError.

Record RequestLine : Type := mkRequestLine {
  HttpVersion : string;
  RequestTarget : string;
  Method : string;
  RequestLine_Body : string
}.

Record Request : Type := mkRequest {
  RequestLine_ : RequestLine;
  Headers_ : Headers;
  Body : string;
  state : parseState
}.

(** Field assignments [r.f = v]. *)
Definition set_RequestLine (r : Request) (rl : RequestLine) : Request :=
  mkRequest rl (Headers_ r) (Body r) (state r).
Definition set_Headers (r : Request) (h : Headers) : Request :=
  mkRequest (RequestLine_ r) h (Body r) (state r).
Definition set_Body (r : Request) (b : string) : Request :=
  mkRequest (RequestLine_ r) (Headers_ r) b (state r).
Definition set_state (r : Request) (s : parseState) : Request :=
  mkRequest (RequestLine_ r) (Headers_ r) (Body r) s.

Definition getInt (h : Headers) (name : string) (defaultValue : Z) : Z :=
  match Get h name with
  | None => defaultValue
  | Some valueStr =>
    match Atoi valueStr with
    | None => defaultValue
    | Some value => value
    end
  end.

Definition newRequest : Request :=
  {| RequestLine_ := mkRequestLine "" "" "" "";
     Headers_ := NewHeaders;
     Body := "";
     state := StateInit |}.

Definition SEPARATOR : bytes := [CR; LF].

Definition parseRequestLine (b : bytes)
  : option RequestLine * nat * option error :=
  match Index b SEPARATOR with
  | None => (None, 0, None)
  | Some idx =>
    let line := firstn idx b in
    let read := idx + length SEPARATOR in
    let parts := Split line (to_bytes " ") in
    if negb (length parts =? 3)
    then (None, 0, Some ERROR_MALFORMED_REQUEST_LINE)
    else
      let HttpParts := Split (nth 2 parts []) (to_bytes "/") in
      if negb (length HttpParts =? 2)
         || negb (String.eqb (to_string (nth 0 HttpParts [])) "HTTP")
         || negb (String.eqb (to_string (nth 1 HttpParts [])) "1.1")
      then (None, 0, Some ERROR_MALFORMED_REQUEST_LINE)
      else (Some {| Method := to_string (nth 0 parts []);
                    RequestTarget := to_string (nth 1 parts []);
                    HttpVersion := to_string (nth 1 HttpParts []);
                    RequestLine_Body := "" |},
            read, None)
  end.

Definition hasBody (r : Request) : bool :=
  let length := getInt (Headers_ r) "content-length" 0 in
  (0 <? length)%Z.

(** [len(s)] of a Go string, as an [int]. *)
Definition len (s : string) : Z := Z.of_nat (String.length s).

(** The body of the loop [outer] of [parse]; [read] is the local variable
    of that name and [data[read:]] is [skipn read data]. A [return] and a
    [break outer] stop the loop, falling out of the [switch] goes round
    again. *)
Definition parse_iter (r : Request) (data : bytes) (read : nat)
  : Request * step (exec (nat * option error)) :=
  let currentRead := skipn read data in
  if length currentRead =? 0 then (r, Stop (Return (read, None)))
  else
    match state r with
    | StateError =>
      (r, Stop (Return (0, Some ERROR_REQUEST_IN_ERROR_STATE)))
    | StateInit =>
      match parseRequestLine currentRead with
      | (_, _, Some err) =>
        (set_state r StateError, Stop (Return (0, None)))
      | (rl, n, None) =>
        if n =? 0 then (r, Stop (Return (read, None)))
        else
          match rl with
          | None => (r, Stop (Panic "nil pointer dereference"))
          | Some rl =>
            (set_state (set_RequestLine r rl) StateHeader, Again (read + n))
          end
      end
    | StateHeader =>
      match Parse (Headers_ r) currentRead with
      | (h, Return (n, done, Some err)) =>
        (set_Headers r h, Stop (Return (0, Some err)))
      | (h, Return (n, done, None)) =>
        let r := set_Headers r h in
        if n =? 0 then (r, Stop (Return (read, None)))
        else
          let read := read + n in
          if done
          then if hasBody r
               then (set_state r StateBody, Again read)
               else (set_state r StateDone, Again read)
          else (r, Again read)
      | (h, Panic msg) => (set_Headers r h, Stop (Panic msg))
      | (h, NoFuel) => (set_Headers r h, Stop NoFuel)
      end
    | StateBody =>
      let length_ := getInt (Headers_ r) "content-length" 0 in
      if (length_ =? 0)%Z
      then (r, Stop (Panic "Chuncked not implemented"))
      else
        let remaining :=
          Z.min (wrap (length_ - len (Body r)))
                (Z.of_nat (length currentRead)) in
        if (remaining <? 0)%Z
        then (r, Stop (Panic "slice bounds out of range"))
        else
          let r :=
            set_Body r (Body r +:+
                        to_string (firstn (Z.to_nat remaining) currentRead)) in
          let read := read + Z.to_nat remaining in
          if (len (Body r) =? length_)%Z
          then (set_state r StateDone, Again read)
          else (r, Again read)
    | StateDone => (r, Stop (Return (read, None)))
    end.

Fixpoint parse_loop (fuel : nat) (r : Request) (data : bytes) (read : nat)
  : Request * exec (nat * option error) :=
  match fuel with
  | 0 => (r, NoFuel)
  | S fuel' =>
    match parse_iter r data read with
    | (r', Again read') => parse_loop fuel' r' data read'
    | (r', Stop res) => (r', res)
    end
  end.

Definition parse (r : Request) (data : bytes)
  : Request * exec (nat * option error) :=
  parse_loop (length data + 2) r data 0.

Definition done (r : Request) : bool :=
  match state r with
  | StateDone | StateError => true
  | _ => false
  end.

(** An [io.Reader] is the sequence of the results [(p[:n], err)] of its
    successive [Read] calls; once the sequence is used up, [Read] reports
    [io.EOF]. *)
Definition Reader : Type := list (bytes * option error).

(** The loop of [RequestFromReader] over a buffer of [size] bytes; [buf]
    is [buf[:bufLen]]. A [Read] that hands back more than the space it was
    given makes [buf[:bufLen]] panic. *)
Fixpoint readLoop (size : nat) (reader : Reader) (request : Request)
         (buf : bytes) : exec (option Request * option error) :=
  if done request then Return (Some request, None)
  else
    match reader with
    | [] => Return (None, Some EOF)
    | (_, Some err) :: _ => Return (None, Some err)
    | (p, None) :: reader' =>
      let buf := buf ++ p in
      if size <? length buf then Panic "slice bounds out of range"
      else
        match parse request buf with
        | (_, Return (_, Some err)) => Return (None, Some err)
        | (request', Return (readN, None)) =>
          readLoop size reader' request' (skipn readN buf)
        | (_, Panic msg) => Panic msg
        | (_, NoFuel) => NoFuel
        end
    end.

Definition RequestFromReader (reader : Reader)
  : exec (option Request * option error) :=
  readLoop 1024 reader newRequest [].

End request.

(** ** [package request], first revision ([internal/request/request.go]) *)

Module request0.
Import GoLib.

Record RequestLine : Type := mkRequestLine {
  HttpVersion : string;
  RequestTarget : string;
  Method : string
}.

Inductive error0 : Type := ERROR_REQUEST_LINE.

Definition SEPARATOR : string := String CR (String LF EmptyString).

(** [strings.Index], [strings.Split] and the slices [b[:i]], [b[i:]] work
    on the bytes of the string. *)
Definition parseRequestLine (b : string)
  : option RequestLine * string * option error0 :=
  match Index (to_bytes b) (to_bytes SEPARATOR) with
  | None => (None, b, None)
  | Some idx =>
    let line := to_string (firstn idx (to_bytes b)) in
    let restOfMsg :=
      to_string (skipn (idx + String.length SEPARATOR) (to_bytes b)) in
    let parts := map to_string (Split (to_bytes line) (to_bytes " ")) in
    if negb (length parts =? 3)
    then (None, restOfMsg, Some ERROR_REQUEST_LINE)
    else (Some {| Method := nth 0 parts ""%string;
                  RequestTarget := nth 1 parts ""%string;
                  HttpVersion := nth 2 parts ""%string |},
          restOfMsg, None)
  end.

End request0.

(** ** [cmd/httpServer] *)

Module httpServer.

(** The digit that [%x] prints for a value below 16. *)
Definition hexDigit (n : nat) : ascii :=
  nth n (to_bytes "0123456789abcdef") "0"%char.

(** [fmt.Sprintf("%02x", b)] for a byte [b]: two hexadecimal digits, the
    high one first. *)
Definition Sprintf_02x (b : ascii) : string :=
  String (hexDigit (nat_of_ascii b / 16))
         (String (hexDigit (nat_of_ascii b mod 16)) EmptyString).

Definition toStr (bytes : list ascii) : string :=
  fold_left (fun out b => (out +:+ Sprintf_02x b)%string) bytes ""%string.

End httpServer.

(** * Notions used in the statements *)

Module Notions.
Import GoLib headers request.

(** Results of a run on [data[k:]], reported for [data]: the count of a
    successful run moves by [k], a failure reports [0] as it is. *)
Definition shiftP (k : nat) (x : Headers * exec (nat * bool * option error))
  : Headers * exec (nat * bool * option error) :=
  match x with
  | (h, Return (n, done, None)) => (h, Return (k + n, done, None))
  | _ => x
  end.

(** What [Parse] leaves behind when it stops without error and without the
    blank line: it goes on from there when more bytes arrive. *)
Definition resumeP (x : Headers * exec (nat * bool * option error))
           (k : Headers -> nat -> Headers * exec (nat * bool * option error))
  : Headers * exec (nat * bool * option error) :=
  match x with
  | (h, Return (n, false, None)) => shiftP n (k h n)
  | _ => x
  end.

Definition ends_crlf (l : bytes) : Prop := exists l', l = l' ++ [CR; LF].

(** Results of a run on [data[k:]], reported for [data]. *)
Definition bump (k : nat) (x : Request * exec (nat * option error))
  : Request * exec (nat * option error) :=
  match x with
  | (r, Return (n, None)) => (r, Return (k + n, None))
  | _ => x
  end.

(** The content length that [parse] reads off the header store. *)
Definition contentLength (r : Request) : Z :=
  getInt (Headers_ r) "content-length" 0.

(** The invariant of the parser: no body byte is stored before the body
    begins, and while the body is read the content length is positive and
    not reached yet. *)
Definition inv (r : Request) : Prop :=
  match state r with
  | StateInit | StateHeader => Body r = ""%string
  | StateBody => (0 < contentLength r /\ len (Body r) < contentLength r)%Z
  | StateDone | StateError => True
  end.

(** What is left for the loop to do. *)
Definition mu (r : Request) (data : bytes) (read : nat) : nat :=
  (length data - read) +
  match state r with StateDone => 0 | _ => 1 end.

(** The requests that [parse] can be called on: a new one, and the result
    of a call on one of them. *)
Inductive reachable : Request -> Prop :=
| reach_new : reachable newRequest
| reach_parse r data : reachable r -> reachable (fst (parse r data)).

(** The body state: one call takes the smaller of what is missing and
    what is there, and the state is [StateDone] when nothing is missing
    any more. *)
Definition takeBody (r : Request) (data : bytes) : Request * nat :=
  let remaining :=
    Z.min (contentLength r - len (Body r)) (Z.of_nat (length data)) in
  let r1 :=
    set_Body r (Body r +:+ to_string (firstn (Z.to_nat remaining) data)) in
  (if (len (Body r1) =? contentLength r)%Z then set_state r1 StateDone else r1,
   Z.to_nat remaining).

(** The state that follows the blank line. *)
Definition afterHeaders (r : Request) : Request :=
  if hasBody r then set_state r StateBody else set_state r StateDone.

(** The bytes that the body still lacks. *)
Definition missing (r : Request) : Z := (contentLength r - len (Body r))%Z.

(** What a call leaves to the next one: unless the request line was
    refused in this call, the parser goes on from where it stopped when
    more bytes arrive. *)
Definition resume (r : Request) (x : Request * exec (nat * option error))
           (k : Request -> nat -> Request * exec (nat * option error))
  : Request * exec (nat * option error) :=
  match x with
  | (r1, Return (n1, None)) =>
    match state r, state r1 with
    | StateInit, StateError => x
    | _, _ => bump n1 (k r1 n1)
    end
  | _ => x
  end.

(** The request line of a request: unset until a request line is accepted,
    and with the version [1.1] from then on. *)
Definition version_ok (r : Request) : Prop :=
  match state r with
  | StateInit | StateError => RequestLine_ r = RequestLine_ newRequest
  | _ => HttpVersion (RequestLine_ r) = "1.1"%string
  end.

(** The bytes that a call consumed: complete lines, each with its CRLF,
    and after them the bytes that the call appended to the body. *)
Definition lines_then_body (r r' : Request) (data : bytes) (n : nat) : Prop :=
  exists k,
    k <= n /\
    (k = 0 \/ ends_crlf (firstn k data)) /\
    (state r = StateBody -> k = 0) /\
    Body r' = (Body r +:+ to_string (firstn (n - k) (skipn k data)))%string.

(** The outcome "need more data": nothing consumed, no error. *)
Definition waits_for_more (r : Request) (data : bytes) : Prop :=
  exists r', parse r data = (r', Return (0, None)).

(** A well-behaved stream that delivers the given fragments, one per
    [Read]. *)
Definition fragments (frags : list bytes) : Reader :=
  map (fun f => (f, None)) frags.

(** Two bytes that are the same, or the same letter in the two cases. *)
Definition is_lower (c : ascii) : bool :=
  (97 <=? nat_of_ascii c) && (nat_of_ascii c <=? 122).

Definition upper_of (c : ascii) : ascii := ascii_of_nat (nat_of_ascii c - 32).

Definition same_letter (c c' : ascii) : bool :=
  Ascii.eqb c c'
  || (is_lower c && Ascii.eqb c' (upper_of c))
  || (is_lower c' && Ascii.eqb c (upper_of c')).

(** Two names that differ only in letter case. *)
Fixpoint differ_only_in_case (s s' : string) : bool :=
  match s, s' with
  | EmptyString, EmptyString => true
  | String c s, String c' s' => same_letter c c' && differ_only_in_case s s'
  | _, _ => false
  end.

(** Bytes below 128 only: the inputs on which [strings.ToLower] and
    [bytes.TrimSpace] stay on their ASCII paths. *)
Definition ascii_bytes (s : bytes) : bool :=
  forallb (fun c => nat_of_ascii c <? 128) s.

Definition ascii_only (s : string) : bool := ascii_bytes (to_bytes s).

(** What is stored under a name: nothing, or a value of some length. [Set_]
    makes it grow under its own name and leaves the other names alone. *)
Definition stored (h : Headers) (name : string) : nat :=
  match Get h name with
  | Some v => S (String.length v)
  | None => 0
  end.

(** A header line as it stands in the buffer before its CRLF: not empty and
    without CRLF inside. *)
Definition is_line (l : bytes) : bool :=
  match l with
  | [] => false
  | _ => match Index l rn with None => true | Some _ => false end
  end.

(** The field of a well-formed header line; [None] for a malformed one. *)
Definition field (l : bytes) : option (string * string) :=
  match parseHeader l with
  | (name, value, None) =>
    if isToken (to_bytes name) then Some (name, value) else None
  | _ => None
  end.

Definition well_formed (l : bytes) : bool :=
  is_line l && match field l with Some _ => true | None => false end.

Definition malformed (l : bytes) : bool :=
  is_line l && match field l with Some _ => false | None => true end.

(** The header store after the fields of [lines] have been set in order. *)
Definition store (h : Headers) (lines : list bytes) : Headers :=
  fold_left (fun h l => match field l with
                        | Some (name, value) => Set_ h name value
                        | None => h
                        end) lines h.

(** The buffer made of [lines], each followed by CRLF. *)
Definition with_crlf (lines : list bytes) : bytes :=
  concat (map (fun l => l ++ [CR; LF]) lines).

(** The header store after [Set] was called with each name and value of
    [fields], in order. *)
Definition set_all (h : Headers) (fields : list (string * string)) : Headers :=
  fold_left (fun h f => Set_ h (fst f) (snd f)) fields h.

(** Every name under which the store holds a value satisfies [P]. *)
Definition names_are (P : string -> Prop) (h : Headers) : Prop :=
  forall name value, headers h !! name = Some value -> P name.

(** The bytes of a token as RFC 9110 has them: a visible ASCII byte that is
    not a delimiter (the double quote, code 34, and ["(),/:;<=>?@[\]{}"]). *)
Definition tchar (c : ascii) : bool :=
  (32 <? nat_of_ascii c) && (nat_of_ascii c <? 127)
  && negb (Ascii.eqb c "034")
  && negb (existsb (Ascii.eqb c) (to_bytes "(),/:;<=>?@[\]{}")).

(** A name as the store keeps it: in lower case. *)
Definition is_lowered (name : string) : Prop := ToLower name = name.

(** A name that [Parse] lets through: token bytes only. *)
Definition is_token_name (name : string) : Prop :=
  isToken (to_bytes name) = true.

(** The order of the states along a request. *)
Definition rank (s : parseState) : nat :=
  match s with
  | StateInit => 0
  | StateHeader => 1
  | StateBody => 2
  | StateDone => 3
  | StateError => 4
  end.

(** The body of a request that is done: as long as the content length says
    when that is above zero, and empty otherwise. *)
Definition body_complete (r : Request) : Prop :=
  state r = StateDone ->
  if (0 <? contentLength r)%Z then len (Body r) = contentLength r
  else Body r = ""%string.

(** Reading back two hexadecimal digits per byte. *)
Definition hexValue (c : ascii) : option nat :=
  match Index (to_bytes "0123456789abcdef") [c] with
  | Some n => Some n
  | None => None
  end.

Fixpoint fromHex (s : string) : option (list ascii) :=
  match s with
  | EmptyString => Some []
  | String hi (String lo s') =>
    match hexValue hi, hexValue lo, fromHex s' with
    | Some h, Some l, Some bs => Some (ascii_of_nat (16 * h + l) :: bs)
    | _, _, _ => None
    end
  | String _ EmptyString => None
  end.

(** What [RequestFromReader] makes of the results of [parse]: an error of
    the parser, the request when it is done, and the end of the stream
    otherwise. *)
Definition outcome (x : Request * exec (nat * option error))
  : exec (option Request * option error) :=
  match x with
  | (_, Return (_, Some err)) => Return (None, Some err)
  | (r, Return (_, None)) =>
    if done r then Return (Some r, None) else Return (None, Some EOF)
  | (_, Panic msg) => Panic msg
  | (_, NoFuel) => NoFuel
  end.

End Notions.

(** * Inputs of the scenarios *)

Module Samples.
Import GoLib headers request Notions.

Definition crlf : bytes := [CR; LF].

(** ["GET /a HTTP/1.1\r\nHost: x\r\n\r\n"] *)
Definition get_host : bytes :=
  to_bytes "GET /a HTTP/1.1" ++ crlf ++ to_bytes "Host: x" ++ crlf ++ crlf.

Definition host_request : Request :=
  {| RequestLine_ := {| HttpVersion := "1.1"; RequestTarget := "/a";
                        Method := "GET"; RequestLine_Body := "" |};
     Headers_ := {| headers := {[ "host"%string := "x"%string ]} |};
     Body := "";
     state := StateDone |}.

(** ["GET /a HTTP/2.0\r\n\r\n"] *)
Definition get_http2 : bytes := to_bytes "GET /a HTTP/2.0" ++ crlf ++ crlf.

(** ["GET /a\r\n"]: a request line of two tokens. *)
Definition get_two_tokens : bytes := to_bytes "GET /a" ++ crlf.

(** ["POST /a HTTP/1.1\r\nContent-Length: 5\r\n\r\n"] *)
Definition post_head : bytes :=
  to_bytes "POST /a HTTP/1.1" ++ crlf ++ to_bytes "Content-Length: 5" ++ crlf
  ++ crlf.

(** The request after [post_head]: the body of five bytes is awaited. *)
Definition post_request (body : string) (st : parseState) : Request :=
  {| RequestLine_ := {| HttpVersion := "1.1"; RequestTarget := "/a";
                        Method := "POST"; RequestLine_Body := "" |};
     Headers_ := {| headers := {[ "content-length"%string := "5"%string ]} |};
     Body := body;
     state := st |}.

(** The request that refused its request line. *)
Definition refused : Request := set_state newRequest StateError.

End Samples.

(** * Facts about the library functions *)

Module GoLibFacts.
Import GoLib.

Lemma HasPrefix_app s p t :
  HasPrefix s p = true -> HasPrefix (s ++ t) p = true.
Proof.
  revert s; induction p as [|c p IH]; intros [|d s]; simpl; try done.
  intros [-> H]%andb_prop. by rewrite (IH _ H).
Qed.

Lemma HasPrefix_app_false s p t :
  HasPrefix s p = false -> length p <= length s ->
  HasPrefix (s ++ t) p = false.
Proof.
  revert s; induction p as [|c p IH]; intros [|d s]; simpl; try done; try lia.
  intros H Hlen. destruct (Ascii.eqb d c); simpl in *; [|done].
  apply IH; [done|lia].
Qed.

Lemma HasPrefix_true s p :
  HasPrefix s p = true -> s = p ++ skipn (length p) s.
Proof.
  revert s; induction p as [|c p IH]; intros [|d s]; simpl; try done.
  intros [Hc H]%andb_prop. apply Ascii.eqb_eq in Hc as ->.
  f_equal. by apply IH.
Qed.

Lemma HasPrefix_refl p t : HasPrefix (p ++ t) p = true.
Proof.
  induction p as [|c p IH]; simpl; [done|].
  by rewrite Ascii.eqb_refl.
Qed.

Lemma Index_bound s sep i :
  Index s sep = Some i -> i + length sep <= length s.
Proof.
  revert i; induction s as [|c s IH]; intros i; simpl.
  - destruct (HasPrefix [] sep) eqn:E; [|done].
    intros [= <-]. apply HasPrefix_true in E.
    destruct sep; [simpl; lia|done].
  - destruct (HasPrefix (c :: s) sep) eqn:E.
    + intros [= <-]. apply HasPrefix_true in E.
      apply (f_equal (@length _)) in E. rewrite length_app in E.
      simpl in *. lia.
    + destruct (Index s sep) as [j|]; [|done].
      intros [= <-]. specialize (IH j eq_refl). simpl; lia.
Qed.

Lemma Index_app s sep t i :
  Index s sep = Some i -> Index (s ++ t) sep = Some i.
Proof.
  revert i; induction s as [|c s IH]; intros i.
  - simpl. destruct (HasPrefix [] sep) eqn:E; [|done].
    intros [= <-]. destruct sep; [|done]. by destruct t.
  - cbn [Index app]. destruct (HasPrefix (c :: s) sep) eqn:E.
    + intros [= <-].
      change (c :: s ++ t) with ((c :: s) ++ t).
      by rewrite (HasPrefix_app _ _ t E).
    + destruct (Index s sep) as [j|] eqn:Ej; [|done].
      intros [= <-].
      change (c :: s ++ t) with ((c :: s) ++ t).
      rewrite HasPrefix_app_false; [|done|].
      * by rewrite (IH j eq_refl).
      * apply Index_bound in Ej. simpl; lia.
Qed.

Lemma Index_split s sep i :
  Index s sep = Some i ->
  s = firstn i s ++ sep ++ skipn (i + length sep) s.
Proof.
  revert i; induction s as [|c s IH]; intros i.
  - simpl. destruct (HasPrefix [] sep) eqn:E; [|done].
    intros [= <-]. by destruct sep.
  - cbn [Index]. destruct (HasPrefix (c :: s) sep) eqn:E.
    + intros [= <-]. by apply HasPrefix_true in E.
    + destruct (Index s sep) as [j|] eqn:Ej; [|done].
      intros [= <-]. simpl. f_equal. by apply IH.
Qed.

(** A line without CRLF, followed by CRLF: the first CRLF is the one that
    ends the line. *)
Lemma Index_cons c s sep :
  Index (c :: s) sep =
  if HasPrefix (c :: s) sep then Some 0 else option_map S (Index s sep).
Proof. done. Qed.

Lemma Index_line l rest :
  Index l [CR; LF] = None ->
  Index (l ++ [CR; LF] ++ rest) [CR; LF] = Some (length l).
Proof.
  induction l as [|c l IH]; [done|].
  rewrite <- app_comm_cons, !Index_cons.
  destruct (HasPrefix (c :: l) [CR; LF]) eqn:E; [done|].
  destruct (Index l [CR; LF]) eqn:El; [done|]. intros _.
  rewrite (IH eq_refl).
  replace (HasPrefix (c :: l ++ [CR; LF] ++ rest) [CR; LF]) with false; [done|].
  symmetry. simpl in *. destruct (Ascii.eqb c CR); [|done]. simpl in *.
  destruct l as [|d l]; [done|]. simpl in *.
  by destruct (Ascii.eqb d LF).
Qed.

Lemma genSplit_nonempty k s sep : genSplit k s sep <> [].
Proof. destruct k; simpl; [done|]. by destruct (Index s sep). Qed.

Lemma genSplit_single k s sep x : genSplit k s sep = [x] -> x = s.
Proof.
  destruct k; simpl; [by intros [= ->]|].
  destruct (Index s sep); [|by intros [= ->]].
  intros [= _ H]. by apply genSplit_nonempty in H.
Qed.

(** Two pieces come from one separator. *)
Lemma genSplit_pair k s sep x y :
  genSplit k s sep = [x; y] -> s = x ++ sep ++ y.
Proof.
  destruct k; simpl; [done|].
  destruct (Index s sep) as [m|] eqn:E; [|done].
  intros [= <- H]. apply genSplit_single in H as ->.
  by apply Index_split.
Qed.

Lemma in_range_bounds z v :
  in_range z = Some v -> (minInt <= v <= maxInt)%Z.
Proof.
  unfold in_range.
  destruct (_ && _) eqn:E; [|done]. intros [= <-].
  apply andb_prop in E as [H1 H2]. lia.
Qed.

Lemma Atoi_range s v : Atoi s = Some v -> (minInt <= v <= maxInt)%Z.
Proof.
  unfold Atoi. destruct (to_bytes s) as [|c s']; [done|].
  repeat case_match; try done;
    intros (z & _ & Hz)%bind_Some; by apply in_range_bounds in Hz.
Qed.

Lemma wrap_id z : (minInt <= z <= maxInt)%Z -> wrap z = z.
Proof.
  unfold wrap, minInt, maxInt. intros H.
  rewrite Z.mod_small; lia.
Qed.

Lemma string_app_cons c (a b : string) :
  (String c a +:+ b = String c (a +:+ b))%string.
Proof. done. Qed.

Lemma string_app_nil_l (a : string) : ("" +:+ a = a)%string.
Proof. done. Qed.

Lemma to_string_app a b :
  to_string (a ++ b) = (to_string a +:+ to_string b)%string.
Proof.
  induction a as [|c a IH]; [done|].
  simpl. by rewrite string_app_cons, IH.
Qed.

Lemma length_to_string a : String.length (to_string a) = length a.
Proof. induction a as [|c a IH]; simpl; [done|]. by rewrite IH. Qed.

Lemma string_length_app (a b : string) :
  String.length (a +:+ b) = String.length a + String.length b.
Proof.
  induction a as [|c a IH]; [done|].
  rewrite string_app_cons. simpl. by rewrite IH.
Qed.

Lemma string_app_assoc (a b c : string) :
  ((a +:+ b) +:+ c = a +:+ (b +:+ c))%string.
Proof.
  induction a as [|x a IH]; [done|].
  by rewrite !string_app_cons, IH.
Qed.

Lemma string_app_nil_r (a : string) : (a +:+ "" = a)%string.
Proof.
  induction a as [|x a IH]; [done|].
  by rewrite string_app_cons, IH.
Qed.

End GoLibFacts.

(** * The loop of [Headers.Parse] *)

Module ParseFacts.
Import GoLib GoLibFacts headers Notions.

Lemma shiftP_0 x : shiftP 0 x = x.
Proof. by destruct x as [h [[[n d] [e|]]| |]]. Qed.

Lemma shiftP_shiftP j k x : shiftP j (shiftP k x) = shiftP (j + k) x.
Proof.
  destruct x as [h [[[n d] [e|]]| |]]; simpl; try done.
  by rewrite Nat.add_assoc.
Qed.

Lemma Parse_iter_progress h data read h' read' :
  Parse_iter h data read = (h', Again read') ->
  read < read' <= length data.
Proof.
  unfold Parse_iter.
  destruct (Index (skipn read data) rn) as [[|idx]|] eqn:E; try done.
  apply Index_bound in E. rewrite length_drop in E. simpl in E.
  destruct (parseHeader _) as [[name value] [e|]]; [done|].
  destruct (negb _); [done|]. intros [= _ <-]. simpl. lia.
Qed.

Lemma Parse_loop_fuel f1 f2 h data read :
  length data - read < f1 -> length data - read < f2 ->
  Parse_loop f1 h data read = Parse_loop f2 h data read.
Proof.
  revert f2 h read; induction f1 as [|f1 IH]; intros [|f2] h read; try lia.
  intros H1 H2. simpl.
  destruct (Parse_iter h data read) as [h' [read'|res]] eqn:E; [|done].
  apply Parse_iter_progress in E. apply IH; lia.
Qed.

Lemma Parse_iter_shift h data read :
  Parse_iter h data read =
  match Parse_iter h (skipn read data) 0 with
  | (h', Again n) => (h', Again (read + n))
  | (h', Stop (n, done, None)) => (h', Stop (read + n, done, None))
  | x => x
  end.
Proof.
  unfold Parse_iter. rewrite skipn_O.
  destruct (Index (skipn read data) rn) as [[|idx]|]; simpl.
  - done.
  - destruct (parseHeader _) as [[name value] [e|]]; [done|].
    by destruct (negb _).
  - by rewrite Nat.add_0_r.
Qed.

Lemma Parse_loop_shift f h data read :
  Parse_loop f h data read = shiftP read (Parse_loop f h (skipn read data) 0).
Proof.
  revert h read data; induction f as [|f IH]; intros h read data; [done|].
  simpl. rewrite Parse_iter_shift.
  destruct (Parse_iter h (skipn read data) 0) as [h' [n|[[n d] [e|]]]]; try done.
  rewrite (IH h' (read + n)), (IH h' n), shiftP_shiftP.
  by rewrite drop_drop.
Qed.

(** The loop, unrolled once. *)
Lemma Parse_unfold h data :
  Parse h data =
  match Parse_iter h data 0 with
  | (h', Again n) => shiftP n (Parse h' (skipn n data))
  | (h', Stop res) => (h', Return res)
  end.
Proof.
  unfold Parse at 1. simpl.
  destruct (Parse_iter h data 0) as [h' [n|res]] eqn:E; [|done].
  apply Parse_iter_progress in E.
  rewrite Parse_loop_shift. unfold Parse. f_equal.
  apply Parse_loop_fuel; rewrite length_drop; lia.
Qed.

(** Induction along the lines that [Parse] consumes. *)
Lemma Parse_ind
      (P : Headers -> bytes -> Headers * exec (nat * bool * option error) -> Prop) :
  (forall h data, Index data rn = None ->
     P h data (h, Return (0, false, None))) ->
  (forall h data, Index data rn = Some 0 ->
     P h data (h, Return (2, true, None))) ->
  (forall h data idx name value e,
     Index data rn = Some (S idx) ->
     parseHeader (firstn (S idx) data) = (name, value, Some e) ->
     P h data (h, Return (0, false, Some e))) ->
  (forall h data idx name value,
     Index data rn = Some (S idx) ->
     parseHeader (firstn (S idx) data) = (name, value, None) ->
     isToken (to_bytes name) = false ->
     P h data (h, Return (0, false, Some ErrMalformedHeaderName))) ->
  (forall h data idx name value,
     Index data rn = Some (S idx) ->
     parseHeader (firstn (S idx) data) = (name, value, None) ->
     isToken (to_bytes name) = true ->
     P (Set_ h name value) (skipn (S idx + 2) data)
       (Parse (Set_ h name value) (skipn (S idx + 2) data)) ->
     P h data (shiftP (S idx + 2)
                 (Parse (Set_ h name value) (skipn (S idx + 2) data)))) ->
  forall h data, P h data (Parse h data).
Proof.
  intros Hnone Hdone Herr Htok Hline h data.
  remember (length data) as k eqn:Hk.
  revert h data Hk. induction (lt_wf k) as [k _ IH]. intros h data ->.
  rewrite Parse_unfold.
  destruct (Parse_iter h data 0) as [h' [n|res]] eqn:E.
  - pose proof (Parse_iter_progress _ _ _ _ _ E) as Hn.
    unfold Parse_iter in E. rewrite skipn_O in E.
    destruct (Index data rn) as [[|idx]|] eqn:Ei; try done.
    destruct (parseHeader _) as [[name value] [e|]] eqn:Eh; [done|].
    destruct (isToken _) eqn:Et; simpl in E; [|done].
    injection E as <- <-. simpl.
    eapply Hline; eauto.
    eapply IH; [|done]. rewrite length_drop. simpl in Hn. lia.
  - unfold Parse_iter in E. rewrite skipn_O in E.
    destruct (Index data rn) as [[|idx]|] eqn:Ei.
    + injection E as <- <-. by apply Hdone.
    + destruct (parseHeader _) as [[name value] [e|]] eqn:Eh.
      * injection E as <- <-. eapply Herr; eauto.
      * destruct (isToken _) eqn:Et; simpl in E; [done|].
        injection E as <- <-. eapply Htok; eauto.
    + injection E as <- <-. by apply Hnone.
Qed.

Lemma Index_take_crlf data idx :
  Index data rn = Some idx ->
  firstn (idx + 2) data = firstn idx data ++ [CR; LF].
Proof.
  intros E. pose proof (Index_bound _ _ _ E) as Hb.
  apply Index_split in E. simpl in *.
  rewrite E at 1. rewrite take_app_ge; rewrite length_take; [|lia].
  f_equal. by replace (idx + 2 - idx `min` length data) with 2 by lia.
Qed.

(** [Parse] returns, and what it returns. *)
Lemma Parse_spec h data :
  exists h' n done err,
    Parse h data = (h', Return (n, done, err)) /\
    n <= length data /\
    (err <> None -> n = 0 /\ done = false) /\
    (err = None -> done = false -> Index (skipn n data) rn = None) /\
    (err = None -> done = true -> 2 <= n) /\
    (err = None -> n = 0 -> h' = h) /\
    (n = 0 \/ ends_crlf (firstn n data)).
Proof.
  apply (Parse_ind (fun h data x => exists h' n done err,
    x = (h', Return (n, done, err)) /\
    n <= length data /\
    (err <> None -> n = 0 /\ done = false) /\
    (err = None -> done = false -> Index (skipn n data) rn = None) /\
    (err = None -> done = true -> 2 <= n) /\
    (err = None -> n = 0 -> h' = h) /\
    (n = 0 \/ ends_crlf (firstn n data)))); clear h data.
  - intros h data E. exists h, 0, false, None.
    repeat split; try done; try lia; by left.
  - intros h data E. exists h, 2, true, None.
    pose proof (Index_bound _ _ _ E) as Hb. simpl in Hb.
    repeat split; try done; try lia.
    right. exists []. by apply (Index_take_crlf _ 0).
  - intros h data idx name value e E _. exists h, 0, false, (Some e).
    repeat split; try done; try lia; by left.
  - intros h data idx name value E _ _.
    exists h, 0, false, (Some ErrMalformedHeaderName).
    repeat split; try done; try lia; by left.
  - intros h data idx name value E _ _
           (h' & n & d & err & -> & Hn & Herr & Hmore & Hdone & _ & Hcrlf).
    pose proof (Index_bound _ _ _ E) as Hb. simpl in Hb.
    rewrite length_drop in Hn.
    destruct err as [e|]; simpl.
    + destruct (Herr ltac:(done)) as [-> ->].
      exists h', 0, false, (Some e).
      repeat split; try done; try lia; by left.
    + exists h', (S idx + 2 + n), d, None.
      repeat split; try done; try lia.
      * intros _ Hd. rewrite <- drop_drop. by apply Hmore.
      * right. destruct Hcrlf as [->|[l' Hl']].
        -- rewrite Nat.add_0_r, (Index_take_crlf _ _ E). by eexists.
        -- rewrite <- take_take_drop, Hl', app_assoc. by eexists.
Qed.

Lemma Parse_returns h data :
  exists h' n done err, Parse h data = (h', Return (n, done, err)).
Proof.
  destruct (Parse_spec h data) as (h' & n & d & e & H & _). eauto.
Qed.

(** More bytes behind the buffer: [Parse] does on [d1 ++ d2] what it does
    on [d1], and goes on from where it stopped. *)
Lemma Parse_app h d1 d2 :
  Parse h (d1 ++ d2) =
  resumeP (Parse h d1) (fun h1 n1 => Parse h1 (skipn n1 d1 ++ d2)).
Proof.
  revert d2.
  apply (Parse_ind (fun h d1 x => forall d2,
    Parse h (d1 ++ d2) =
    resumeP x (fun h1 n1 => Parse h1 (skipn n1 d1 ++ d2)))); clear h d1.
  - intros h d1 E d2. simpl. by rewrite shiftP_0.
  - intros h d1 E d2. simpl.
    rewrite Parse_unfold. unfold Parse_iter.
    by rewrite skipn_O, (Index_app _ _ d2 _ E).
  - intros h d1 idx name value e E Eh d2. simpl.
    pose proof (Index_bound _ _ _ E) as Hb. simpl in Hb.
    rewrite Parse_unfold. unfold Parse_iter.
    rewrite skipn_O, (Index_app _ _ d2 _ E).
    rewrite take_app_le by lia. by rewrite Eh.
  - intros h d1 idx name value E Eh Et d2. simpl.
    pose proof (Index_bound _ _ _ E) as Hb. simpl in Hb.
    rewrite Parse_unfold. unfold Parse_iter.
    rewrite skipn_O, (Index_app _ _ d2 _ E).
    rewrite take_app_le by lia. by rewrite Eh, Et.
  - intros h d1 idx name value E Eh Et IH d2.
    pose proof (Index_bound _ _ _ E) as Hb. simpl in Hb.
    rewrite Parse_unfold. unfold Parse_iter.
    rewrite skipn_O, (Index_app _ _ d2 _ E).
    rewrite take_app_le by lia. rewrite Eh, Et. simpl negb. cbv iota.
    change (0 + (S idx + length rn)) with (S idx + 2).
    rewrite drop_app_le by lia. rewrite IH.
    destruct (Parse (Set_ h name value) (skipn (S idx + 2) d1))
      as [h1 [[[m [|]] [e|]]| |]]; simpl; try done.
    by rewrite shiftP_shiftP, drop_drop.
Qed.

End ParseFacts.

(** * The loop of [parse] *)

Module RequestFacts.
Import GoLib GoLibFacts headers ParseFacts request Notions.

Lemma bump_0 x : bump 0 x = x.
Proof. by destruct x as [r [[n [e|]]| |]]. Qed.

Lemma bump_bump j k x : bump j (bump k x) = bump (j + k) x.
Proof.
  destruct x as [r [[n [e|]]| |]]; simpl; try done.
  by rewrite Nat.add_assoc.
Qed.

Lemma getInt_range h name : (minInt <= getInt h name 0 <= maxInt)%Z.
Proof.
  unfold getInt. destruct (Get h name) as [v|]; [|done].
  destruct (Atoi v) as [z|] eqn:E; [|done]. by apply Atoi_range in E.
Qed.

Lemma len_nonneg s : (0 <= len s)%Z.
Proof. unfold len. lia. Qed.

(** The three outcomes of [parseRequestLine]. *)
Lemma parseRequestLine_cases b :
  (Index b SEPARATOR = None /\ parseRequestLine b = (None, 0, None)) \/
  (exists idx, Index b SEPARATOR = Some idx /\
     parseRequestLine b = (None, 0, Some ERROR_MALFORMED_REQUEST_LINE)) \/
  (exists idx rl, Index b SEPARATOR = Some idx /\
     parseRequestLine b = (Some rl, idx + 2, None) /\
     HttpVersion rl = "1.1"%string).
Proof.
  unfold parseRequestLine.
  destruct (Index b SEPARATOR) as [idx|] eqn:E; [right|by left].
  destruct (negb (length _ =? 3)); [left; eauto|].
  destruct (_ || _) eqn:Ev; [left; eauto|].
  right. eexists idx, _. repeat split; try done.
  simpl. apply orb_false_elim in Ev as [_ Ev].
  apply negb_false_iff in Ev. by apply String.eqb_eq in Ev.
Qed.

Lemma parseRequestLine_app b d2 idx :
  Index b SEPARATOR = Some idx ->
  parseRequestLine (b ++ d2) = parseRequestLine b.
Proof.
  intros E. pose proof (Index_bound _ _ _ E) as Hb.
  unfold parseRequestLine.
  rewrite (Index_app _ _ d2 _ E), E. by rewrite take_app_le by lia.
Qed.

Lemma parse_iter_not_init r data read r' read' :
  parse_iter r data read = (r', Again read') -> state r' <> StateInit.
Proof.
  unfold parse_iter. intros H.
  repeat case_match; simplify_eq; simpl; congruence.
Qed.

Lemma parse_iter_state r data read r' x :
  parse_iter r data read = (r', x) ->
  state r <> StateInit -> state r' <> StateInit.
Proof.
  unfold parse_iter. intros H.
  repeat case_match; simplify_eq; simpl; congruence.
Qed.

Lemma len_app_take (B : string) (cur : bytes) (rem : Z) :
  (0 <= rem <= Z.of_nat (length cur))%Z ->
  len (B +:+ to_string (firstn (Z.to_nat rem) cur)) = (len B + rem)%Z.
Proof.
  intros H. unfold len.
  rewrite string_length_app, length_to_string, length_take. lia.
Qed.

(** In the body state of a request that satisfies the invariant, the
    number of bytes taken is the smaller of what is missing and what is
    there, without wrap-around. *)
Lemma remaining_eq r (cur : bytes) :
  state r = StateBody -> inv r ->
  Z.min (wrap (contentLength r - len (Body r))) (Z.of_nat (length cur)) =
  Z.min (contentLength r - len (Body r)) (Z.of_nat (length cur)).
Proof.
  unfold inv. intros -> [H1 H2].
  pose proof (getInt_range (Headers_ r) "content-length") as Hr.
  pose proof (len_nonneg (Body r)).
  fold (contentLength r) in Hr.
  rewrite wrap_id; [done|]. unfold minInt, maxInt in *. lia.
Qed.

Ltac iter_cases r data read :=
  unfold parse_iter; cbv zeta;
  destruct (length (skipn read data) =? 0) eqn:Hlen;
  [| destruct (state r) eqn:Hst;
     [ destruct (parseRequestLine_cases (skipn read data))
         as [[Hidx ->]|[(idx & Hidx & ->)|(idx & rl & Hidx & -> & Hver)]];
       [ | | replace (idx + 2 =? 0) with false by (symmetry; apply Nat.eqb_neq; lia) ]
     | destruct (Parse_spec (Headers_ r) (skipn read data))
         as (h & n & d & err & -> & Hn & Herr & Hmore & Hdone & Hsame & Hcrlf);
       destruct err as [e|];
       [| destruct (n =? 0) eqn:Hn0;
          [| destruct d; [destruct (hasBody (set_Headers r h)) eqn:Hbody|] ] ]
     | fold (contentLength r);
       destruct (contentLength r =? 0)%Z eqn:HL;
       [| destruct (Z.min (wrap (contentLength r - len (Body r)))
                          (Z.of_nat (length (skipn read data))) <? 0)%Z eqn:Hrem;
          [| match goal with
             | |- context [(len ?b =? contentLength ?r')%Z] =>
               destruct (len b =? contentLength r')%Z eqn:Hfull
             end ] ]
     | | ] ].

Lemma parse_iter_inv r data read r' x :
  inv r -> parse_iter r data read = (r', x) -> inv r'.
Proof.
  intros Hinv. iter_cases r data read; intros [= <- <-]; try done;
    unfold inv in *; cbn [state set_state set_Headers set_RequestLine set_Body];
    rewrite ?Hst in *; try done.
  - unfold hasBody in Hbody. unfold contentLength.
    cbn [Headers_ Body set_state set_Headers] in *.
    rewrite Hinv. unfold len. simpl. lia.
  - pose proof (remaining_eq r (skipn read data) Hst) as Hr.
    unfold inv in Hr. rewrite Hst in Hr. rewrite (Hr Hinv) in *.
    unfold contentLength in *. cbn [Headers_ Body set_Body] in *.
    rewrite len_app_take in * by lia. lia.
Qed.

Lemma parse_iter_progress r data read r' read' :
  inv r -> parse_iter r data read = (r', Again read') ->
  read <= read' <= length data /\ mu r' data read' < mu r data read.
Proof.
  intros Hinv.
  iter_cases r data read; intros [= <- <-];
    unfold mu; cbn [state set_state set_Headers set_RequestLine set_Body];
    rewrite ?Hst; rewrite length_drop in *;
    try apply Nat.eqb_neq in Hlen; try apply Nat.eqb_neq in Hn0.
  - apply Index_bound in Hidx. rewrite length_drop in Hidx. simpl in Hidx. lia.
  - lia.
  - lia.
  - lia.
  - pose proof (remaining_eq r (skipn read data) Hst Hinv) as Hr.
    rewrite length_drop in Hr. rewrite Hr in *.
    unfold inv in Hinv. rewrite Hst in Hinv. lia.
  - pose proof (remaining_eq r (skipn read data) Hst Hinv) as Hr.
    rewrite length_drop in Hr. rewrite Hr in *.
    unfold inv in Hinv. rewrite Hst in Hinv. lia.
Qed.

(** An iteration of a request that satisfies the invariant never panics:
    it stops with [(read, nil)] or with [(0, err)]. *)
Lemma parse_iter_stop r data read r' res :
  inv r -> parse_iter r data read = (r', Stop res) ->
  exists n err, res = Return (n, err) /\ (n = read \/ n = 0).
Proof.
  intros Hinv.
  iter_cases r data read; intros [= <- <-]; eauto.
  - unfold inv in Hinv. rewrite Hst in Hinv. lia.
  - pose proof (remaining_eq r (skipn read data) Hst Hinv) as Hr.
    rewrite Hr in *. unfold inv in Hinv. rewrite Hst in Hinv. lia.
Qed.

Lemma parse_iter_shift r data read :
  state r <> StateInit ->
  parse_iter r data read =
  match parse_iter r (skipn read data) 0 with
  | (r', Again n) => (r', Again (read + n))
  | (r', Stop (Return (n, None))) => (r', Stop (Return (read + n, None)))
  | x => x
  end.
Proof.
  intros Hst. unfold parse_iter. rewrite skipn_O. cbv zeta.
  rewrite ?Nat.add_0_r.
  destruct (length (skipn read data) =? 0); [by rewrite Nat.add_0_r|].
  destruct (state r); try done.
  - destruct (Parse _ _) as [h [[[n d] [e|]]| |]]; try done.
    destruct (n =? 0); [by rewrite Nat.add_0_r|].
    destruct d; [|done]. by destruct (hasBody _).
  - destruct (_ =? 0)%Z; [done|]. destruct (_ <? 0)%Z; [done|].
    by destruct (_ =? _)%Z.
  - by rewrite Nat.add_0_r.
Qed.

Lemma parse_loop_fuel f1 f2 r data read :
  inv r -> mu r data read < f1 -> mu r data read < f2 ->
  parse_loop f1 r data read = parse_loop f2 r data read.
Proof.
  revert f2 r read; induction f1 as [|f1 IH]; intros [|f2] r read; try lia.
  intros Hinv H1 H2. simpl.
  destruct (parse_iter r data read) as [r' [read'|res]] eqn:E; [|done].
  pose proof (parse_iter_inv _ _ _ _ _ Hinv E).
  apply parse_iter_progress in E; [|done]. apply IH; [done|lia..].
Qed.

Lemma parse_loop_shift f r data read :
  state r <> StateInit ->
  parse_loop f r data read = bump read (parse_loop f r (skipn read data) 0).
Proof.
  revert r read data; induction f as [|f IH]; intros r read data Hst; [done|].
  simpl. rewrite parse_iter_shift by done.
  destruct (parse_iter r (skipn read data) 0) as [r' [n|[[k [e|]]| |]]] eqn:E;
    try done.
  apply parse_iter_not_init in E.
  rewrite (IH r' (read + n)), (IH r' n), bump_bump by done.
  by rewrite drop_drop.
Qed.

(** The loop, unrolled once. *)
Lemma parse_unfold r data :
  inv r ->
  parse r data =
  match parse_iter r data 0 with
  | (r', Again n) => bump n (parse r' (skipn n data))
  | (r', Stop res) => (r', res)
  end.
Proof.
  intros Hinv. unfold parse at 1.
  replace (length data + 2) with (S (length data + 1)) by lia.
  simpl.
  destruct (parse_iter r data 0) as [r' [n|res]] eqn:E; [|done].
  pose proof (parse_iter_inv _ _ _ _ _ Hinv E) as Hinv'.
  pose proof (parse_iter_not_init _ _ _ _ _ E) as Hst.
  apply parse_iter_progress in E as [Hn Hmu]; [|done].
  rewrite parse_loop_shift by done. unfold parse. f_equal.
  assert (mu r data 0 <= length data + 1)
    by (unfold mu; destruct (state r); lia).
  assert (mu r' (skipn n data) 0 = mu r' data n)
    by (unfold mu; rewrite length_drop; lia).
  assert (mu r' (skipn n data) 0 <= length (skipn n data) + 1)
    by (unfold mu; destruct (state r'); lia).
  apply parse_loop_fuel; [done|lia..].
Qed.

(** A property that every iteration keeps is kept by the loop. *)
Lemma parse_loop_keeps (P : Request -> Prop) :
  (forall r data read r' x, P r -> parse_iter r data read = (r', x) -> P r') ->
  forall f r data read, P r -> P (fst (parse_loop f r data read)).
Proof.
  intros Hstep. induction f as [|f IH]; intros r data read HP; [done|].
  simpl. destruct (parse_iter r data read) as [r' [read'|res]] eqn:E.
  - apply IH. eauto.
  - simpl. eauto.
Qed.

Lemma parse_inv r data : inv r -> inv (fst (parse r data)).
Proof. apply parse_loop_keeps. intros; by eapply parse_iter_inv. Qed.

Lemma newRequest_inv : inv newRequest.
Proof. done. Qed.

Lemma reachable_inv r : reachable r -> inv r.
Proof.
  induction 1 as [|r data _ IH]; [apply newRequest_inv|by apply parse_inv].
Qed.

(** [parse] returns on every request that satisfies the invariant: it
    neither panics nor loops, and it reports no more than it was given. *)
Lemma parse_loop_returns f r data read :
  inv r -> mu r data read < f -> read <= length data ->
  exists r' n err,
    parse_loop f r data read = (r', Return (n, err)) /\ n <= length data.
Proof.
  revert r read; induction f as [|f IH]; intros r read Hinv Hmu Hread; [lia|].
  simpl. destruct (parse_iter r data read) as [r' [read'|res]] eqn:E.
  - pose proof (parse_iter_inv _ _ _ _ _ Hinv E).
    apply parse_iter_progress in E; [|done]. apply IH; [done|lia..].
  - apply parse_iter_stop in E as (n & err & -> & Hn); [|done].
    exists r', n, err. split; [done|lia].
Qed.

Lemma parse_returns r data :
  inv r ->
  exists r' n err, parse r data = (r', Return (n, err)) /\ n <= length data.
Proof.
  intros Hinv. apply parse_loop_returns; [done| |lia].
  unfold mu. destruct (state r); lia.
Qed.

(** ** What a call does, state by state *)

Lemma set_Headers_same r : set_Headers r (Headers_ r) = r.
Proof. by destruct r. Qed.

Lemma parse_nil r : parse r [] = (r, Return (0, None)).
Proof. done. Qed.

Lemma parse_Done r data :
  state r = StateDone -> parse r data = (r, Return (0, None)).
Proof.
  intros Hst. unfold parse.
  replace (length data + 2) with (S (length data + 1)) by lia.
  simpl. unfold parse_iter. rewrite Hst. by destruct (_ =? 0).
Qed.

Lemma parse_Error r data :
  state r = StateError -> data <> [] ->
  parse r data = (r, Return (0, Some ERROR_REQUEST_IN_ERROR_STATE)).
Proof.
  intros Hst Hd. unfold parse.
  replace (length data + 2) with (S (length data + 1)) by lia.
  simpl. unfold parse_iter. rewrite Hst. by destruct data.
Qed.

Lemma parse_Body r data :
  state r = StateBody -> inv r ->
  parse r data =
  (fst (takeBody r data), Return (snd (takeBody r data), None)).
Proof.
  intros Hst Hinv.
  pose proof Hinv as Hi. unfold inv in Hi. rewrite Hst in Hi.
  destruct data as [|c data].
  { rewrite parse_nil. unfold takeBody. cbv zeta. simpl length.
    replace (Z.min _ _) with 0%Z by lia. simpl.
    rewrite string_app_nil_r.
    replace (set_Body r (Body r)) with r by (by destruct r).
    by replace (len (Body r) =? contentLength r)%Z with false by lia. }
  rewrite parse_unfold by done. unfold parse_iter. cbv zeta.
  rewrite skipn_O, Hst. fold (contentLength r).
  change (length (c :: data) =? 0) with false. cbv iota.
  rewrite (remaining_eq r (c :: data) Hst Hinv).
  unfold takeBody. cbv zeta.
  set (rem := Z.min _ _).
  assert (0 < rem <= Z.of_nat (length (c :: data)))%Z as Hrem
    by (subst rem; simpl length; lia).
  replace (contentLength r =? 0)%Z with false by lia.
  replace (rem <? 0)%Z with false by lia.
  cbn [Body set_Body fst snd]. rewrite len_app_take by lia.
  destruct (len (Body r) + rem =? contentLength r)%Z eqn:Hfull.
  - rewrite parse_Done by done. simpl. by rewrite Nat.add_0_r.
  - assert (rem = Z.of_nat (length (c :: data))) as Hall by lia.
    rewrite Nat.add_0_l, Hall, Nat2Z.id, drop_all, parse_nil. simpl.
    by rewrite Nat.add_0_r.
Qed.

Lemma Parse_no_line h data :
  Index data rn = None -> Parse h data = (h, Return (0, false, None)).
Proof.
  intros E. rewrite Parse_unfold. unfold Parse_iter.
  by rewrite skipn_O, E.
Qed.

Lemma parse_Header_err r data h n done err :
  state r = StateHeader -> inv r ->
  Parse (Headers_ r) data = (h, Return (n, done, Some err)) ->
  parse r data = (set_Headers r h, Return (0, Some err)).
Proof.
  intros Hst Hinv HP. destruct data as [|c data]; [done|].
  rewrite parse_unfold by done. unfold parse_iter. cbv zeta.
  by rewrite skipn_O, Hst, HP.
Qed.

Lemma parse_Header_more r data h n :
  state r = StateHeader -> inv r ->
  Parse (Headers_ r) data = (h, Return (n, false, None)) ->
  parse r data = (set_Headers r h, Return (n, None)).
Proof.
  intros Hst Hinv HP.
  destruct (Parse_spec (Headers_ r) data)
    as (h' & n' & d & e & HP' & Hn & _ & Hmore & _ & Hsame & _).
  rewrite HP in HP'. injection HP' as <- <- <- <-.
  specialize (Hmore eq_refl eq_refl).
  destruct data as [|c data].
  { rewrite parse_nil. simpl in Hn. assert (n = 0) as -> by lia.
    by rewrite (Hsame eq_refl eq_refl), set_Headers_same. }
  rewrite parse_unfold by done. unfold parse_iter. cbv zeta.
  rewrite skipn_O, Hst, HP. cbn [length Nat.eqb].
  destruct (n =? 0) eqn:Hn0; [by apply Nat.eqb_eq in Hn0 as ->|].
  assert (inv (set_Headers r h)) as Hinv'
    by (unfold inv in *; simpl; by rewrite Hst in *).
  rewrite parse_unfold by done. unfold parse_iter. cbv zeta.
  rewrite skipn_O. cbn [state set_Headers Headers_]. rewrite Hst.
  rewrite (Parse_no_line _ _ Hmore). simpl.
  destruct (length (skipn n (c :: data)) =? 0); simpl;
    by rewrite Nat.add_0_r.
Qed.

Lemma parse_Header_done r data h n :
  state r = StateHeader -> inv r ->
  Parse (Headers_ r) data = (h, Return (n, true, None)) ->
  parse r data =
  bump n (parse (afterHeaders (set_Headers r h)) (skipn n data)).
Proof.
  intros Hst Hinv HP.
  destruct (Parse_spec (Headers_ r) data)
    as (h' & n' & d & e & HP' & Hn & _ & _ & Hdone & _).
  rewrite HP in HP'. injection HP' as <- <- <- <-.
  specialize (Hdone eq_refl eq_refl).
  destruct data as [|c data]; [simpl in Hn; lia|].
  rewrite parse_unfold by done. unfold parse_iter. cbv zeta.
  rewrite skipn_O, Hst, HP. cbn [length Nat.eqb].
  replace (n =? 0) with false by (symmetry; apply Nat.eqb_neq; lia).
  unfold afterHeaders. by destruct (hasBody _).
Qed.

Lemma parse_Init_more r data :
  state r = StateInit -> inv r ->
  Index data SEPARATOR = None ->
  parse r data = (r, Return (0, None)).
Proof.
  intros Hst Hinv E. destruct data as [|c data]; [done|].
  rewrite parse_unfold by done. unfold parse_iter. cbv zeta.
  rewrite skipn_O, Hst. unfold parseRequestLine. by rewrite E.
Qed.

Lemma parse_Init_err r data err rl n :
  state r = StateInit -> inv r ->
  parseRequestLine data = (rl, n, Some err) ->
  parse r data = (set_state r StateError, Return (0, None)).
Proof.
  intros Hst Hinv E. destruct data as [|c data]; [done|].
  rewrite parse_unfold by done. unfold parse_iter. cbv zeta.
  by rewrite skipn_O, Hst, E.
Qed.

Lemma parse_Init_line r data rl idx :
  state r = StateInit -> inv r ->
  parseRequestLine data = (Some rl, idx + 2, None) ->
  parse r data =
  bump (idx + 2)
       (parse (set_state (set_RequestLine r rl) StateHeader)
              (skipn (idx + 2) data)).
Proof.
  intros Hst Hinv E. destruct data as [|c data]; [done|].
  rewrite parse_unfold by done. unfold parse_iter. cbv zeta.
  rewrite skipn_O, Hst, E. cbn [length Nat.eqb].
  by replace (idx + 2 =? 0) with false by (symmetry; apply Nat.eqb_neq; lia).
Qed.

(** ** More bytes behind the buffer *)

Lemma takeBody_fill r data :
  (0 <= missing r <= Z.of_nat (length data))%Z ->
  takeBody r data =
  (set_state
     (set_Body r (Body r +:+ to_string (firstn (Z.to_nat (missing r)) data)))
     StateDone,
   Z.to_nat (missing r)).
Proof.
  unfold missing. intros H. unfold takeBody. cbv zeta.
  rewrite Z.min_l by lia. cbn [Body set_Body].
  rewrite len_app_take by lia.
  by replace (len (Body r) + (contentLength r - len (Body r)) =? contentLength r)%Z
    with true by lia.
Qed.

Lemma takeBody_part r data :
  (Z.of_nat (length data) < missing r)%Z ->
  takeBody r data = (set_Body r (Body r +:+ to_string data), length data).
Proof.
  unfold missing. intros H. unfold takeBody. cbv zeta.
  rewrite Z.min_r by lia. rewrite Nat2Z.id, firstn_all.
  cbn [Body set_Body]. unfold len at 1.
  rewrite string_length_app, length_to_string.
  pose proof (len_nonneg (Body r)). unfold len in *.
  by replace (Z.of_nat (String.length (Body r) + length data) =? contentLength r)%Z
    with false by (symmetry; apply Z.eqb_neq; lia).
Qed.

Lemma missing_part r data :
  missing (set_Body r (Body r +:+ to_string data)) =
  (missing r - Z.of_nat (length data))%Z.
Proof.
  unfold missing, contentLength, len. cbn [Body set_Body Headers_].
  rewrite string_length_app, length_to_string. lia.
Qed.

Lemma takeBody_app r d1 d2 :
  state r = StateBody -> (0 < missing r)%Z ->
  takeBody r (d1 ++ d2) =
  let '(r1, n1) := takeBody r d1 in
  match state r1 with
  | StateDone => (r1, n1)
  | _ => let '(r2, n2) := takeBody r1 d2 in (r2, n1 + n2)
  end.
Proof.
  intros Hst Hm.
  destruct (Z.le_gt_cases (missing r) (Z.of_nat (length d1))) as [Hle|Hgt].
  - rewrite (takeBody_fill r d1) by lia. cbn [state set_state].
    rewrite takeBody_fill by (rewrite length_app; lia).
    by rewrite take_app_le by lia.
  - rewrite (takeBody_part r d1) by lia. cbn [state set_Body]. rewrite Hst.
    set (r1 := set_Body r (Body r +:+ to_string d1)).
    assert (missing r1 = missing r - Z.of_nat (length d1))%Z as Hm1
      by apply missing_part.
    destruct (Z.le_gt_cases (missing r1) (Z.of_nat (length d2))) as [Hle2|Hgt2].
    + rewrite (takeBody_fill r1 d2) by lia.
      rewrite takeBody_fill by (rewrite length_app; lia).
      replace (Z.to_nat (missing r)) with (length d1 + Z.to_nat (missing r1))
        by lia.
      rewrite take_app_add, to_string_app.
      subst r1. cbn [set_Body Body RequestLine_ Headers_ state].
      by rewrite string_app_assoc.
    + rewrite (takeBody_part r1 d2) by lia.
      rewrite takeBody_part by (rewrite length_app; lia).
      rewrite to_string_app, length_app.
      subst r1. cbn [set_Body Body RequestLine_ Headers_ state].
      by rewrite string_app_assoc.
Qed.

Lemma resume_idle r k : resume r (r, Return (0, None)) k = k r 0.
Proof. unfold resume. destruct (state r); by rewrite bump_0. Qed.

Lemma resume_ext r x k k' :
  (forall r1 n1, k r1 n1 = k' r1 n1) -> resume r x k = resume r x k'.
Proof.
  intros H. destruct x as [r1 [[n [e|]]| |]]; try done.
  simpl. by rewrite H.
Qed.

Lemma resume_bump r r' m x k :
  state r' <> StateInit ->
  (state r = StateInit -> state (fst x) <> StateError) ->
  resume r (bump m x) k =
  bump m (resume r' x (fun r1 n1 => k r1 (m + n1))).
Proof.
  intros Hr' Hx. destruct x as [r1 [[n [e|]]| |]]; try done.
  simpl in *.
  destruct (state r) eqn:E, (state r') eqn:E', (state r1) eqn:E1;
    try done; try (by rewrite bump_bump); by destruct Hx.
Qed.

Lemma parse_iter_not_error r data read r' x :
  state r <> StateInit /\ state r <> StateError ->
  parse_iter r data read = (r', x) ->
  state r' <> StateInit /\ state r' <> StateError.
Proof.
  unfold parse_iter. intros [H1 H2] H.
  repeat case_match; simplify_eq; simpl; split; congruence.
Qed.

Lemma parse_not_error r data :
  state r <> StateInit -> state r <> StateError ->
  state (fst (parse r data)) <> StateError.
Proof.
  intros H1 H2.
  apply (parse_loop_keeps
           (fun r => state r <> StateInit /\ state r <> StateError)); [|done].
  intros; by eapply parse_iter_not_error.
Qed.

Lemma parse_app_Body r d1 d2 :
  state r = StateBody -> inv r ->
  parse r (d1 ++ d2) =
  resume r (parse r d1) (fun r1 n1 => parse r1 (skipn n1 d1 ++ d2)).
Proof.
  intros Hst Hinv.
  assert (0 < missing r)%Z as Hm
    by (unfold inv in Hinv; rewrite Hst in Hinv; unfold missing; lia).
  rewrite !parse_Body by done.
  rewrite takeBody_app by done. unfold resume. rewrite Hst.
  destruct (Z.le_gt_cases (missing r) (Z.of_nat (length d1))) as [Hle|Hgt].
  - rewrite (takeBody_fill r d1) by lia. cbn [fst snd state set_state].
    rewrite parse_Done by done. simpl. by rewrite Nat.add_0_r.
  - pose proof (parse_inv r d1 Hinv) as Hinv1.
    rewrite parse_Body in Hinv1 by done.
    rewrite (takeBody_part r d1) in * by lia.
    cbn [fst snd state set_Body] in *. rewrite Hst.
    rewrite drop_all, app_nil_l.
    rewrite parse_Body by done.
    by destruct (takeBody _ d2).
Qed.

Lemma afterHeaders_inv r h :
  state r = StateHeader -> inv r ->
  inv (afterHeaders (set_Headers r h)) /\
  (state (afterHeaders (set_Headers r h)) = StateBody \/
   state (afterHeaders (set_Headers r h)) = StateDone).
Proof.
  unfold afterHeaders, hasBody, inv, contentLength. intros -> HB.
  cbn [Headers_ set_Headers].
  destruct (0 <? _)%Z eqn:Hb;
    cbn [state set_state set_Headers Body Headers_]; [|by auto].
  rewrite HB. split; [|by auto]. unfold len. simpl. lia.
Qed.

Lemma parse_app_Header r d1 d2 :
  state r = StateHeader -> inv r ->
  parse r (d1 ++ d2) =
  resume r (parse r d1) (fun r1 n1 => parse r1 (skipn n1 d1 ++ d2)).
Proof.
  intros Hst Hinv.
  destruct (Parse_spec (Headers_ r) d1)
    as (h1 & m1 & dn1 & e1 & HP1 & Hm1 & Herr1 & _).
  pose proof (Parse_app (Headers_ r) d1 d2) as HP. rewrite HP1 in HP.
  destruct e1 as [e|];
    [destruct (Herr1 ltac:(done)) as [-> ->]|destruct dn1]; simpl in HP.
  - rewrite (parse_Header_err _ _ _ _ _ _ Hst Hinv HP1).
    by rewrite (parse_Header_err _ _ _ _ _ _ Hst Hinv HP).
  - rewrite (parse_Header_done _ _ _ _ Hst Hinv HP1).
    rewrite (parse_Header_done _ _ _ _ Hst Hinv HP).
    rewrite drop_app_le by lia.
    set (r' := afterHeaders (set_Headers r h1)).
    assert (inv r' /\ (state r' = StateBody \/ state r' = StateDone))
      as [Hinv' Hst'].
    { by apply afterHeaders_inv. }
    rewrite (resume_bump r r') by (rewrite ?Hst; destruct Hst'; congruence).
    f_equal. destruct Hst' as [Hb|Hd].
    + rewrite (parse_app_Body r') by done.
      apply resume_ext. intros r1 n1. by rewrite drop_drop.
    + rewrite !(parse_Done r') by done. rewrite resume_idle.
      by rewrite parse_Done by done.
  - assert (inv (set_Headers r h1)) as Hinv1
      by (unfold inv in *; simpl; by rewrite Hst in *).
    rewrite (parse_Header_more _ _ _ _ Hst Hinv HP1).
    unfold resume. rewrite Hst.
    destruct (Parse_spec h1 (skipn m1 d1 ++ d2))
      as (h2 & m2 & dn2 & e2 & HP2 & _).
    rewrite HP2 in HP. simpl in HP.
    destruct e2 as [e|]; [|destruct dn2].
    + rewrite (parse_Header_err _ _ _ _ _ _ Hst Hinv HP).
      by rewrite (parse_Header_err (set_Headers r h1) _ h2 m2 dn2 e).
    + rewrite (parse_Header_done _ _ _ _ Hst Hinv HP).
      rewrite (parse_Header_done (set_Headers r h1) _ h2 m2) by done.
      rewrite bump_bump, <- drop_drop, drop_app_le by lia. done.
    + rewrite (parse_Header_more _ _ _ _ Hst Hinv HP).
      by rewrite (parse_Header_more (set_Headers r h1) _ h2 m2).
Qed.

Lemma parse_app_Init r d1 d2 :
  state r = StateInit -> inv r ->
  parse r (d1 ++ d2) =
  resume r (parse r d1) (fun r1 n1 => parse r1 (skipn n1 d1 ++ d2)).
Proof.
  intros Hst Hinv.
  destruct (parseRequestLine_cases d1)
    as [[Hidx _]|[(idx & Hidx & HL)|(idx & rl & Hidx & HL & _)]].
  - rewrite (parse_Init_more r d1) by done. by rewrite resume_idle.
  - rewrite (parse_Init_err _ _ _ _ _ Hst Hinv HL).
    rewrite <- (parseRequestLine_app _ d2 _ Hidx) in HL.
    rewrite (parse_Init_err _ _ _ _ _ Hst Hinv HL).
    unfold resume. by rewrite Hst.
  - pose proof (Index_bound _ _ _ Hidx) as Hb. simpl in Hb.
    rewrite (parse_Init_line _ _ _ _ Hst Hinv HL).
    rewrite <- (parseRequestLine_app _ d2 _ Hidx) in HL.
    rewrite (parse_Init_line _ _ _ _ Hst Hinv HL).
    rewrite drop_app_le by lia.
    set (r' := set_state (set_RequestLine r rl) StateHeader).
    assert (inv r') as Hinv'
      by (unfold inv in *; subst r'; simpl; by rewrite Hst in Hinv).
    rewrite (resume_bump r r'); [|done|].
    + f_equal. rewrite (parse_app_Header r') by done.
      apply resume_ext. intros r1 n1. by rewrite drop_drop.
    + intros _. by apply parse_not_error.
Qed.

(** Fragmentation, one cut: a call on [d1 ++ d2] does what a call on [d1]
    does, followed by a call on what that one left and [d2]. *)
Lemma parse_app r d1 d2 :
  inv r ->
  parse r (d1 ++ d2) =
  resume r (parse r d1) (fun r1 n1 => parse r1 (skipn n1 d1 ++ d2)).
Proof.
  intros Hinv. destruct (state r) eqn:Hst.
  - by apply parse_app_Init.
  - by apply parse_app_Header.
  - by apply parse_app_Body.
  - rewrite (parse_Done r d1) by done. by rewrite resume_idle.
  - destruct d1 as [|c d1]; [by rewrite parse_nil, resume_idle|].
    by rewrite !parse_Error.
Qed.

End RequestFacts.

(** * The header store *)

Module HeaderStore.
Import GoLib GoLibFacts headers ParseFacts Notions Samples.

Lemma lower_of_lower c : is_lower c = true -> lower c = c.
Proof.
  unfold is_lower, lower. intros [H1 H2]%andb_prop.
  apply Nat.leb_le in H1. apply Nat.leb_le in H2.
  replace (nat_of_ascii c <=? 90) with false
    by (symmetry; apply Nat.leb_gt; lia).
  by rewrite andb_false_r.
Qed.

Lemma lower_of_upper c : is_lower c = true -> lower (upper_of c) = c.
Proof.
  unfold is_lower, lower, upper_of. intros [H1 H2]%andb_prop.
  apply Nat.leb_le in H1. apply Nat.leb_le in H2.
  rewrite nat_ascii_embedding by lia.
  replace (65 <=? nat_of_ascii c - 32) with true
    by (symmetry; apply Nat.leb_le; lia).
  replace (nat_of_ascii c - 32 <=? 90) with true
    by (symmetry; apply Nat.leb_le; lia).
  simpl. replace (nat_of_ascii c - 32 + 32) with (nat_of_ascii c) by lia.
  apply ascii_nat_embedding.
Qed.

Lemma lower_same_letter c c' : same_letter c c' = true -> lower c = lower c'.
Proof.
  unfold same_letter.
  intros [[H|[H1 H2]%andb_prop]%orb_prop|[H1 H2]%andb_prop]%orb_prop.
  - by apply Ascii.eqb_eq in H as ->.
  - apply Ascii.eqb_eq in H2 as ->.
    by rewrite lower_of_upper, lower_of_lower.
  - apply Ascii.eqb_eq in H2 as ->.
    by rewrite lower_of_upper, lower_of_lower.
Qed.

(** Names that differ only in letter case have the same key. *)
Lemma ToLower_fold s s' :
  differ_only_in_case s s' = true -> ToLower s = ToLower s'.
Proof.
  revert s'; induction s as [|c s IH]; intros [|c' s']; simpl; try done.
  intros [H1 H2]%andb_prop. by rewrite (lower_same_letter _ _ H1), (IH _ H2).
Qed.

Lemma Get_Set_new h name name' value :
  Get h name = None -> ToLower name = ToLower name' ->
  Get (Set_ h name value) name' = Some value.
Proof.
  unfold Get, Set_. intros -> <-. simpl. apply lookup_insert_eq.
Qed.

Lemma Get_Set_old h name name' v value :
  Get h name = Some v -> ToLower name = ToLower name' ->
  Get (Set_ h name' value) name = Some (v +:+ "," +:+ value)%string.
Proof.
  unfold Get, Set_. intros H <-. rewrite H. simpl. apply lookup_insert_eq.
Qed.

Lemma Get_Set_other h name name' value :
  ToLower name <> ToLower name' ->
  Get (Set_ h name value) name' = Get h name'.
Proof.
  unfold Get, Set_. intros H.
  destruct (headers h !! ToLower name); simpl; by apply lookup_insert_ne.
Qed.

Lemma Set_grows h name value : stored h name < stored (Set_ h name value) name.
Proof.
  unfold stored. destruct (Get h name) as [v|] eqn:E.
  - rewrite (Get_Set_old _ _ _ _ _ E eq_refl).
    rewrite !string_length_app. simpl. lia.
  - rewrite (Get_Set_new _ _ _ _ E eq_refl). lia.
Qed.

Lemma Set_keeps h name value name' :
  stored h name' <= stored (Set_ h name value) name'.
Proof.
  destruct (decide (ToLower name = ToLower name')) as [E|E].
  - unfold stored, Get. rewrite <- E.
    change (headers h !! ToLower name) with (Get h name).
    change (headers (Set_ h name value) !! ToLower name)
      with (Get (Set_ h name value) name).
    pose proof (Set_grows h name value) as H. unfold stored in H. lia.
  - unfold stored. by rewrite Get_Set_other.
Qed.

Lemma store_keeps lines h name : stored h name <= stored (store h lines) name.
Proof.
  revert h; induction lines as [|l lines IH]; intros h; [done|].
  simpl. destruct (field l) as [[n v]|]; [|apply IH].
  etrans; [apply (Set_keeps h n v)|apply IH].
Qed.

Lemma store_grows lines h l name value :
  In l lines -> field l = Some (name, value) ->
  stored h name < stored (store h lines) name.
Proof.
  revert h; induction lines as [|l' lines IH]; intros h; [done|].
  intros [->|Hin] Hf; simpl.
  - rewrite Hf. eapply Nat.lt_le_trans; [apply Set_grows|apply store_keeps].
  - eapply Nat.le_lt_trans; [|by apply IH].
    destruct (field l') as [[n v]|]; [apply Set_keeps|done].
Qed.

(** One line of the buffer: [Parse] stores its field and goes on, or
    fails on it. *)
Lemma Parse_line h l rest :
  is_line l = true ->
  Parse h (l ++ [CR; LF] ++ rest) =
  match field l with
  | Some (name, value) =>
    shiftP (length l + 2) (Parse (Set_ h name value) rest)
  | None =>
    (h, Return (0, false,
                Some match parseHeader l with
                     | (_, _, Some err) => err
                     | _ => ErrMalformedHeaderName
                     end))
  end.
Proof.
  unfold is_line. destruct l as [|c l]; [done|].
  destruct (Index (c :: l) rn) eqn:E; [done|]. intros _.
  rewrite Parse_unfold. unfold Parse_iter. change rn with [CR; LF] in *.
  rewrite skipn_O, (Index_line _ rest E). cbn [length].
  change (S (length l)) with (length (c :: l)).
  rewrite take_app_length. unfold field.
  destruct (parseHeader (c :: l)) as [[name value] [e|]]; [done|].
  destruct (isToken (to_bytes name)); simpl negb; cbv iota; [|done].
  f_equal. f_equal.
  rewrite (app_assoc (c :: l) [CR; LF] rest).
  replace (0 + (length (c :: l) + 2)) with (length ((c :: l) ++ [CR; LF]))
    by (rewrite length_app; simpl; lia).
  by rewrite drop_app_length.
Qed.

Lemma Parse_lines h lines rest :
  Forall (fun l => well_formed l = true) lines ->
  Parse h (with_crlf lines ++ rest) =
  shiftP (length (with_crlf lines)) (Parse (store h lines) rest).
Proof.
  unfold with_crlf.
  revert h; induction lines as [|l lines IH]; intros h Hl; simpl.
  { by rewrite shiftP_0. }
  apply Forall_cons in Hl as [[Hline Hf]%andb_prop Hl].
  rewrite <- !app_assoc. rewrite (Parse_line _ _ _ Hline).
  destruct (field l) as [[name value]|]; [|done].
  rewrite (IH _ Hl), shiftP_shiftP. f_equal.
  rewrite !length_app. simpl. lia.
Qed.

(** C7. On a fresh header store and for two names that differ only in
    letter case: after [Set(name, a)], [Get(name')] finds [a]; after
    [Set(name, a)] and [Set(name', b)], [Get(name)] finds [a], a comma and
    [b], with nothing added or escaped. *)
Theorem Set_Get_case_insensitive (name name' a b : string) :
  differ_only_in_case name name' = true ->
  Get (Set_ NewHeaders name a) name' = Some a /\
  Get (Set_ (Set_ NewHeaders name a) name' b) name =
  Some (a +:+ "," +:+ b)%string.
Proof.
  intros H%ToLower_fold.
  assert (Get (Set_ NewHeaders name a) name = Some a) as Ha
    by by apply Get_Set_new.
  split.
  - by apply Get_Set_new.
  - by apply (Get_Set_old _ _ _ _ _ Ha).
Qed.

Lemma Set_Get_case_insensitive_witness :
  Get (Set_ NewHeaders "Content-Type" "a") "content-type" = Some "a"%string /\
  Get (Set_ (Set_ NewHeaders "Content-Type" "a") "content-type" "b")
      "Content-Type" = Some "a,b"%string.
Proof.
  apply (Set_Get_case_insensitive "Content-Type" "content-type" "a" "b").
  reflexivity.
Defined.

(** C9. A buffer of one or more well-formed header lines followed by a
    malformed line: [Parse] fails and reports [0] bytes, and the header
    store it leaves holds the fields of the well-formed lines all the same:
    under the name of each of them the store holds more than before the
    call. *)
Theorem Parse_error_keeps_earlier_lines
        (h : Headers) (lines : list bytes) (bad rest : bytes) :
  lines <> [] ->
  Forall (fun l => well_formed l = true) lines ->
  malformed bad = true ->
  exists err,
    Parse h (with_crlf lines ++ bad ++ [CR; LF] ++ rest) =
    (store h lines, Return (0, false, Some err)) /\
    forall l name value,
      In l lines -> field l = Some (name, value) ->
      is_Some (Get (store h lines) name) /\
      Get (store h lines) name <> Get h name.
Proof.
  intros _ Hl [Hline Hbad]%andb_prop.
  rewrite (Parse_lines _ _ _ Hl), (Parse_line _ _ _ Hline).
  destruct (field bad); [done|]. eexists. split; [done|].
  intros l name value Hin Hf.
  pose proof (store_grows lines h l name value Hin Hf) as Hg.
  unfold stored in Hg.
  destruct (Get (store h lines) name) as [v'|] eqn:E'; [|lia].
  split; [done|]. intros E. rewrite <- E in Hg. lia.
Qed.

(** ["Host: x"] and ["X: a"] are well formed, ["no colon"] is not. *)
Lemma Parse_error_keeps_earlier_lines_witness :
  exists err,
    Parse NewHeaders
          (with_crlf [to_bytes "Host: x"; to_bytes "X: a"]
           ++ to_bytes "no colon" ++ [CR; LF] ++ []) =
    (store NewHeaders [to_bytes "Host: x"; to_bytes "X: a"],
     Return (0, false, Some err)) /\
    forall l name value,
      In l [to_bytes "Host: x"; to_bytes "X: a"] ->
      field l = Some (name, value) ->
      is_Some (Get (store NewHeaders [to_bytes "Host: x"; to_bytes "X: a"]) name) /\
      Get (store NewHeaders [to_bytes "Host: x"; to_bytes "X: a"]) name
      <> Get NewHeaders name.
Proof.
  apply (Parse_error_keeps_earlier_lines
           NewHeaders [to_bytes "Host: x"; to_bytes "X: a"]
           (to_bytes "no colon") []).
  - discriminate.
  - repeat constructor.
  - reflexivity.
Defined.

End HeaderStore.

(** * The request parser *)

Module Parser.
Import GoLib GoLibFacts headers ParseFacts request Notions RequestFacts Samples.

Lemma to_string_inj a b : to_string a = to_string b -> a = b.
Proof.
  intros H. apply (f_equal to_bytes) in H. unfold to_bytes, to_string in H.
  by rewrite !list_ascii_of_string_of_list_ascii in H.
Qed.

(** A version token other than [HTTP/1.1] is refused, with the error of a
    malformed request line. *)
Lemma parseRequestLine_bad_version b idx method target version :
  Index b SEPARATOR = Some idx ->
  Split (firstn idx b) (to_bytes " ") = [method; target; version] ->
  version <> to_bytes "HTTP/1.1" ->
  parseRequestLine b = (None, 0, Some ERROR_MALFORMED_REQUEST_LINE).
Proof.
  intros Hidx Hparts Hv. unfold parseRequestLine. rewrite Hidx.
  cbv zeta. rewrite Hparts. cbn [length Nat.eqb negb nth].
  destruct (Split version (to_bytes "/")) as [|a [|b' [|c l]]] eqn:Hs; try done.
  cbn [length Nat.eqb negb nth orb].
  destruct (String.eqb (to_string a) "HTTP") eqn:Ea; [|done].
  destruct (String.eqb (to_string b') "1.1") eqn:Eb; [|done].
  apply String.eqb_eq in Ea, Eb.
  apply (to_string_inj a (to_bytes "HTTP")) in Ea.
  apply (to_string_inj b' (to_bytes "1.1")) in Eb.
  apply genSplit_pair in Hs. subst. done.
Qed.

Lemma parseRequestLine_never_unsupported b :
  snd (parseRequestLine b) <> Some ERROR_UNSUPPORTED_HTTP_VERSION.
Proof.
  destruct (parseRequestLine_cases b)
    as [[_ ->]|[(idx & _ & ->)|(idx & rl & _ & -> & _)]]; done.
Qed.

Lemma parse_iter_version r data read r' x :
  version_ok r -> parse_iter r data read = (r', x) -> version_ok r'.
Proof.
  intros Hv. iter_cases r data read; intros [= <- <-]; try done;
    unfold version_ok in *;
    cbn [state set_state set_Headers set_RequestLine set_Body RequestLine_];
    rewrite ?Hst in *; done.
Qed.

Lemma reachable_version r : reachable r -> version_ok r.
Proof.
  induction 1 as [|r data _ IH]; [done|].
  revert IH. apply parse_loop_keeps. intros; by eapply parse_iter_version.
Qed.

(** Once the header section is over, the header store is left alone. *)
Lemma parse_iter_headers h r data read r' x :
  (state r = StateBody \/ state r = StateDone) /\ Headers_ r = h ->
  parse_iter r data read = (r', x) ->
  (state r' = StateBody \/ state r' = StateDone) /\ Headers_ r' = h.
Proof.
  unfold parse_iter. intros [[H|H] <-] E; rewrite H in E;
    repeat case_match; simplify_eq; simpl; auto.
Qed.

Lemma parse_keeps_headers r data :
  state r = StateBody \/ state r = StateDone ->
  Headers_ (fst (parse r data)) = Headers_ r.
Proof.
  intros H.
  apply (parse_loop_keeps
           (fun r' => (state r' = StateBody \/ state r' = StateDone)
                      /\ Headers_ r' = Headers_ r)); [|done].
  intros; by eapply parse_iter_headers.
Qed.

(** The requests that [RequestFromReader] works on are those that [parse]
    can be called on. *)
Lemma readLoop_reachable size reader r buf r' :
  reachable r ->
  readLoop size reader r buf = Return (Some r', None) -> reachable r'.
Proof.
  revert r buf; induction reader as [|[p [e|]] reader IH]; intros r buf Hr;
    simpl; destruct (done r); try done; try (by intros [= <-]).
  destruct (size <? length (buf ++ p)); [done|].
  destruct (parse r (buf ++ p)) as [r1 [[n [e|]]| |]] eqn:E; try done.
  apply IH. change r1 with (fst (r1, Return (n, @None error))).
  rewrite <- E. by constructor.
Qed.

Lemma RequestFromReader_reachable reader r :
  RequestFromReader reader = Return (Some r, None) -> reachable r.
Proof. apply readLoop_reachable. constructor. Qed.

Lemma readLoop_no_chunked_panic size reader r buf :
  inv r -> readLoop size reader r buf <> Panic "Chuncked not implemented".
Proof.
  revert r buf; induction reader as [|[p [e|]] reader IH]; intros r buf Hr;
    simpl; destruct (done r); try done.
  destruct (size <? length (buf ++ p)); [done|].
  pose proof (parse_inv r (buf ++ p) Hr) as Hinv.
  destruct (parse_returns r (buf ++ p) Hr) as (r1 & n & err & E & _).
  rewrite E in *. destruct err; [done|]. by apply IH.
Qed.

(** What [RequestFromReader] does with the three kinds of failure: an error
    of the stream and an error of [parse] are returned; a refused request
    line is not, because [parse] reports none for it. *)
Lemma read_error_is_returned size reader r buf p err :
  done r = false ->
  readLoop size ((p, Some err) :: reader) r buf = Return (None, Some err).
Proof. intros H. simpl. by rewrite H. Qed.

Lemma parse_error_is_returned size reader r buf p r' n err :
  done r = false -> length (buf ++ p) <= size ->
  parse r (buf ++ p) = (r', Return (n, Some err)) ->
  readLoop size ((p, None) :: reader) r buf = Return (None, Some err).
Proof.
  intros H Hsize E. simpl. rewrite H, E.
  by replace (size <? length (buf ++ p)) with false
    by (symmetry; apply Nat.ltb_ge; lia).
Qed.

Lemma refused_request_is_returned b reader rl n err :
  length b <= 1024 ->
  parseRequestLine b = (rl, n, Some err) ->
  RequestFromReader ((b, None) :: reader) = Return (Some refused, None).
Proof.
  intros Hsize E. unfold RequestFromReader. cbn [readLoop done newRequest state].
  rewrite app_nil_l.
  replace (1024 <? length b) with false by (symmetry; apply Nat.ltb_ge; lia).
  rewrite (parse_Init_err newRequest b err rl n); [|done|done|done].
  fold refused. by destruct reader as [|[p [e|]] reader].
Qed.

(** C10. The branch that panics with "Chuncked not implemented" is never
    taken: on a request that [parse] can be called on, the body state means
    a content length above zero, the header store is not changed any more
    once the header section is over, and [parse] returns, whatever the
    input; the panic does not come out of [RequestFromReader] either. *)
Theorem chunked_panic_unreachable (r : Request) (data : bytes) :
  reachable r ->
  (state r = StateBody -> (0 < getInt (Headers_ r) "content-length" 0)%Z) /\
  (state r = StateBody \/ state r = StateDone ->
   Headers_ (fst (parse r data)) = Headers_ r) /\
  (exists r' n err, parse r data = (r', Return (n, err))) /\
  (forall reader,
     RequestFromReader reader <> Panic "Chuncked not implemented").
Proof.
  intros Hr. pose proof (reachable_inv r Hr) as Hinv.
  repeat split.
  - intros Hst. unfold inv in Hinv. rewrite Hst in Hinv. apply Hinv.
  - apply parse_keeps_headers.
  - destruct (parse_returns r data Hinv) as (r' & n & err & E & _). eauto.
  - intros reader. by apply readLoop_no_chunked_panic.
Qed.

Lemma chunked_panic_unreachable_witness :
  reachable (fst (parse newRequest post_head)) /\
  state (fst (parse newRequest post_head)) = StateBody /\
  (0 < getInt (Headers_ (fst (parse newRequest post_head)))
              "content-length" 0)%Z /\
  (exists r' n err,
     parse (fst (parse newRequest post_head)) (to_bytes "he") =
     (r', Return (n, err))).
Proof.
  assert (reachable (fst (parse newRequest post_head))) as H
    by (apply reach_parse, reach_new).
  assert (state (fst (parse newRequest post_head)) = StateBody) as Hst
    by (vm_compute; reflexivity).
  pose proof (chunked_panic_unreachable _ (to_bytes "he") H)
    as (Hlen & _ & Hret & _).
  split; [exact H|]. split; [exact Hst|]. split; [exact (Hlen Hst)|exact Hret].
Defined.

(** A request that [parse] can be called on and that is in the state
    [StateDone] has the version [1.1]; one in the state [StateError] has
    the empty version of a new request. *)
Lemma done_version (r : Request) :
  reachable r ->
  (state r = StateDone -> HttpVersion (RequestLine_ r) = "1.1"%string) /\
  (state r = StateError -> HttpVersion (RequestLine_ r) = ""%string).
Proof.
  intros Hv%reachable_version. unfold version_ok in Hv. split; intros Hst.
  - by rewrite Hst in Hv.
  - rewrite Hst in Hv. by rewrite Hv.
Qed.

(** C8. A request line of three tokens whose version token is not
    [HTTP/1.1] stores no version, and [parseRequestLine] has an error for
    it; but the parser produces none: [parse] drops the error and returns
    [(0, nil)] with the request in [StateError], which [done] counts as
    complete, and [RequestFromReader] hands that request to its caller with
    a nil error, whatever the stream holds after it. The caller gets a
    request whose version is the empty string, and no error. *)
Theorem bad_version_gives_no_error
        (b : bytes) (idx : nat) (method target version : bytes)
        (reader : Reader) :
  Index b SEPARATOR = Some idx ->
  Split (firstn idx b) (to_bytes " ") = [method; target; version] ->
  version <> to_bytes "HTTP/1.1" ->
  length b <= 1024 ->
  parseRequestLine b = (None, 0, Some ERROR_MALFORMED_REQUEST_LINE) /\
  parse newRequest b = (refused, Return (0, None)) /\
  RequestFromReader ((b, None) :: reader) = Return (Some refused, None) /\
  done refused = true /\
  HttpVersion (RequestLine_ refused) = ""%string /\
  HttpVersion (RequestLine_ refused) <> "1.1"%string.
Proof.
  intros Hidx Hparts Hversion Hsize.
  pose proof (parseRequestLine_bad_version _ _ _ _ _ Hidx Hparts Hversion)
    as Hbad.
  split; [exact Hbad|]. split; [|split].
  - by rewrite (parse_Init_err newRequest b _ _ _ eq_refl eq_refl Hbad).
  - by apply (refused_request_is_returned b reader _ _ _ Hsize Hbad).
  - by repeat split.
Qed.

(** ["GET /a HTTP/2.0\r\n\r\n"], and nothing after it. *)
Lemma bad_version_gives_no_error_witness :
  parseRequestLine get_http2 = (None, 0, Some ERROR_MALFORMED_REQUEST_LINE) /\
  parse newRequest get_http2 = (refused, Return (0, None)) /\
  RequestFromReader [(get_http2, None)] = Return (Some refused, None) /\
  done refused = true /\
  HttpVersion (RequestLine_ refused) = ""%string /\
  HttpVersion (RequestLine_ refused) <> "1.1"%string.
Proof.
  apply (bad_version_gives_no_error
           get_http2 15 (to_bytes "GET") (to_bytes "/a") (to_bytes "HTTP/2.0")
           []).
  - reflexivity.
  - reflexivity.
  - discriminate.
  - simpl. lia.
Defined.

Lemma post_request_reachable : reachable (post_request "" StateBody).
Proof.
  change (post_request "" StateBody) with
    (fst (post_request "" StateBody, Return (39, @None error))).
  replace (post_request "" StateBody, Return (39, @None error))
    with (parse newRequest post_head) by (vm_compute; reflexivity).
  apply reach_parse, reach_new.
Qed.

Lemma refused_reachable : reachable refused.
Proof.
  change refused with (fst (refused, Return (0, @None error))).
  replace (refused, Return (0, @None error))
    with (parse newRequest get_two_tokens) by (vm_compute; reflexivity).
  apply reach_parse, reach_new.
Qed.

(** C5. At the end of the header section the parser goes to the body state
    exactly when the content length read off the headers is above zero (a
    missing or non-numeric header counts as zero) and to [StateDone]
    otherwise. In the body state a call takes the smaller of what is missing
    and what is there, and the state after it is [StateDone] exactly when
    the body has the content length. With [Content-Length: 5] and a body
    that comes as 2 and then 3 bytes, the request is done after the second
    fragment only, with the five bytes as its body. *)
Theorem content_length_body (r : Request) (data : bytes) :
  reachable r ->
  (forall h n,
     state r = StateHeader ->
     Parse (Headers_ r) data = (h, Return (n, true, None)) ->
     parse r data =
     bump n (parse (set_state (set_Headers r h)
                      (if (0 <? getInt h "content-length" 0)%Z
                       then StateBody else StateDone))
                   (skipn n data))) /\
  (forall h, Get h "content-length" = None ->
             getInt h "content-length" 0 = 0%Z) /\
  (forall h v, Get h "content-length" = Some v -> Atoi v = None ->
               getInt h "content-length" 0 = 0%Z) /\
  (state r = StateBody ->
   let remaining :=
     Z.to_nat (Z.min (getInt (Headers_ r) "content-length" 0 - len (Body r))
                     (Z.of_nat (length data))) in
   exists r',
     parse r data = (r', Return (remaining, None)) /\
     Body r' = (Body r +:+ to_string (firstn remaining data))%string /\
     Headers_ r' = Headers_ r /\
     (state r' = StateDone <->
      len (Body r') = getInt (Headers_ r) "content-length" 0) /\
     (state r' = StateBody \/ state r' = StateDone)) /\
  (fst (parse newRequest post_head) = post_request "" StateBody /\
   parse (post_request "" StateBody) (to_bytes "he")
   = (post_request "he" StateBody, Return (2, None)) /\
   parse (post_request "he" StateBody) (to_bytes "llo")
   = (post_request "hello" StateDone, Return (3, None)) /\
   RequestFromReader (fragments [post_head; to_bytes "he"; to_bytes "llo"])
   = Return (Some (post_request "hello" StateDone), None)).
Proof.
  intros Hr. pose proof (reachable_inv r Hr) as Hinv.
  split; [|split; [|split; [|split]]].
  - intros h n Hst HP. rewrite (parse_Header_done _ _ _ _ Hst Hinv HP).
    unfold afterHeaders, hasBody. cbn [Headers_ set_Headers].
    by destruct (0 <? _)%Z.
  - intros h E. unfold getInt. by rewrite E.
  - intros h v E Ev. unfold getInt. by rewrite E, Ev.
  - intros Hst. cbv zeta. rewrite (parse_Body _ _ Hst Hinv).
    unfold takeBody, contentLength. cbv zeta. cbn [fst snd].
    set (rem := Z.to_nat _).
    set (r1 := set_Body r _).
    eexists. split; [done|].
    destruct (len (Body r1) =? _)%Z eqn:E;
      subst r1; cbn [state set_state set_Body Body Headers_] in *;
      rewrite ?Hst; repeat split; auto; try done; try lia.
  - repeat split; vm_compute; reflexivity.
Qed.

Lemma content_length_body_witness :
  reachable (post_request "" StateBody) /\
  state (post_request "" StateBody) = StateBody /\
  (exists r',
     parse (post_request "" StateBody) (to_bytes "he") = (r', Return (2, None)) /\
     Body r' = "he"%string /\
     Headers_ r' = Headers_ (post_request "" StateBody) /\
     (state r' = StateDone <-> len (Body r') = 5%Z) /\
     (state r' = StateBody \/ state r' = StateDone)).
Proof.
  split; [exact post_request_reachable|]. split; [reflexivity|].
  apply (content_length_body _ (to_bytes "he") post_request_reachable).
  reflexivity.
Defined.

(** ** Fragmentation *)

Lemma bump_inv n1 y R n :
  bump n1 y = (R, Return (n, None)) ->
  exists n2, y = (R, Return (n2, None)) /\ n = n1 + n2.
Proof.
  destruct y as [r [[k [e|]]| |]]; simpl; try done.
  intros [= -> <-]. eauto.
Qed.

Lemma resume_inv r r1 n1 k R n :
  resume r (r1, Return (n1, None)) k = (R, Return (n, None)) ->
  state R = StateDone ->
  exists n2, k r1 n1 = (R, Return (n2, None)) /\ n = n1 + n2.
Proof.
  unfold resume. intros H HR.
  destruct (state r) eqn:E, (state r1) eqn:E1;
    try (by apply bump_inv in H); simplify_eq; congruence.
Qed.

(** What is left in the buffer after a call is of no use to the parser
    until more bytes arrive. *)
Lemma parse_rest_idle r data r1 n1 :
  inv r -> parse r data = (r1, Return (n1, None)) ->
  state r1 <> StateError ->
  parse r1 (skipn n1 data) = (r1, Return (0, None)).
Proof.
  intros Hinv E Hst.
  pose proof (parse_app r data [] Hinv) as H.
  rewrite app_nil_r, E in H. unfold resume in H.
  assert ((r1, Return (n1, @None error)) = bump n1 (parse r1 (skipn n1 data ++ [])))
    as H' by (destruct (state r), (state r1); done).
  rewrite app_nil_r in H'. symmetry in H'.
  apply bump_inv in H' as (n2 & -> & Hn). f_equal. f_equal. f_equal. lia.
Qed.

Lemma readLoop_fragments size frags r buf R n :
  inv r ->
  parse r buf = (r, Return (0, None)) ->
  parse r (buf ++ concat frags) = (R, Return (n, None)) ->
  state R = StateDone ->
  length (buf ++ concat frags) <= size ->
  readLoop size (fragments frags) r buf = Return (Some R, None).
Proof.
  revert r buf n; induction frags as [|f frags IH];
    intros r buf n Hinv Hidle Hall HR Hsize.
  - simpl in *. rewrite app_nil_r, Hidle in Hall. injection Hall as -> _.
    unfold done. by rewrite HR.
  - cbn [fragments map readLoop]. fold (fragments frags).
    destruct (done r) eqn:Hd.
    { unfold done in Hd. destruct (state r) eqn:Hst; try done.
      - rewrite parse_Done in Hall by done. by injection Hall as ->.
      - destruct (buf ++ concat (f :: frags)) as [|c l] eqn:El.
        + rewrite parse_nil in Hall. injection Hall as -> _. congruence.
        + by rewrite parse_Error in Hall. }
    simpl concat in *. rewrite app_assoc in Hall, Hsize.
    rewrite length_app in Hsize.
    replace (size <? length (buf ++ f)) with false
      by (symmetry; apply Nat.ltb_ge; lia).
    pose proof (parse_inv r (buf ++ f) Hinv) as Hinv1.
    destruct (parse_returns r (buf ++ f) Hinv) as (r1 & n1 & e1 & E & Hn1).
    rewrite E in *. cbn [fst] in Hinv1.
    rewrite (parse_app r (buf ++ f) (concat frags) Hinv), E in Hall.
    destruct e1 as [e|]; [done|].
    assert (state r1 <> StateError) as Hne.
    { intros Hs. unfold resume in Hall. unfold done in Hd.
      pose proof (parse_not_error r (buf ++ f)) as Hno. rewrite E in Hno.
      destruct (state r) eqn:Hst; rewrite ?Hs in Hall; try done.
      - injection Hall as -> _. congruence.
      - by apply Hno.
      - by apply Hno. }
    apply resume_inv in Hall as (n2 & Hall & ->); [|done].
    apply (IH r1 _ n2); try done.
    + exact (parse_rest_idle r (buf ++ f) r1 n1 Hinv E Hne).
    + rewrite length_app, length_drop. lia.
Qed.

(** C2. Fragmentation is transparent: when one call of [parse] on a whole
    message completes a request, the message fed in fragments, whatever
    the cuts (byte by byte, the whole at once, or anything between, empty
    fragments included), with the unconsumed bytes kept at the front of a
    buffer that can hold the message, ends with the same request: the same
    method, target, version, headers and body. *)
Theorem fragmentation_transparent
        (size : nat) (msg : bytes) (frags : list bytes) (R : Request) (n : nat) :
  parse newRequest msg = (R, Return (n, None)) ->
  state R = StateDone ->
  concat frags = msg ->
  length msg <= size ->
  readLoop size (fragments frags) newRequest [] = Return (Some R, None).
Proof.
  intros Hall HR <- Hsize.
  by apply (readLoop_fragments size frags newRequest [] R n).
Qed.

Lemma fragmentation_transparent_witness :
  RequestFromReader
    (fragments [to_bytes "GET /a HT"; to_bytes "TP/1.1" ++ [CR];
                [LF] ++ to_bytes "Host: x" ++ crlf ++ [CR]; [LF]])
  = Return (Some host_request, None).
Proof.
  apply (fragmentation_transparent 1024 get_host _ host_request 28).
  - vm_compute; reflexivity.
  - reflexivity.
  - reflexivity.
  - vm_compute; lia.
Defined.

(** ** What a call consumes *)

Lemma parse_loop_error f r data read r' n err :
  parse_loop f r data read = (r', Return (n, Some err)) -> n = 0.
Proof.
  revert r read; induction f as [|f IH]; intros r read; [done|].
  simpl. destruct (parse_iter r data read) as [r1 [read'|res]] eqn:E.
  - apply IH.
  - intros [= -> ->]. unfold parse_iter in E.
    repeat case_match; by simplify_eq.
Qed.

Lemma parse_keeps_late r data :
  state r = StateBody \/ state r = StateDone ->
  state (fst (parse r data)) = StateBody \/
  state (fst (parse r data)) = StateDone.
Proof.
  intros H.
  apply (parse_loop_keeps
           (fun r' => (state r' = StateBody \/ state r' = StateDone)
                      /\ Headers_ r' = Headers_ r)); [|done].
  intros; by eapply parse_iter_headers.
Qed.

Ltac consumed_with k := exists k; split; [|split; [|split]].

Lemma consumed_idle r data : lines_then_body r r data 0.
Proof.
  consumed_with 0; [done|by left|done|].
  simpl. by rewrite string_app_nil_r.
Qed.

Lemma consumed_late r data r' n :
  state r = StateBody \/ state r = StateDone -> inv r ->
  parse r data = (r', Return (n, None)) ->
  Body r' = (Body r +:+ to_string (firstn n data))%string.
Proof.
  intros [Hst|Hst] Hinv E.
  - rewrite parse_Body in E by done. injection E as <- <-.
    unfold takeBody. cbv zeta. cbn [fst snd]. by destruct (_ =? _)%Z.
  - rewrite parse_Done in E by done. injection E as <- <-.
    simpl. by rewrite string_app_nil_r.
Qed.

Lemma consumed_Header r data r' n :
  state r = StateHeader -> inv r ->
  parse r data = (r', Return (n, None)) ->
  lines_then_body r r' data n.
Proof.
  intros Hst Hinv E.
  destruct (Parse_spec (Headers_ r) data)
    as (h & m & dn & e & HP & Hm & _ & _ & _ & _ & Hcrlf).
  destruct e as [e|]; [|destruct dn].
  - by rewrite (parse_Header_err _ _ _ _ _ _ Hst Hinv HP) in E.
  - rewrite (parse_Header_done _ _ _ _ Hst Hinv HP) in E.
    apply bump_inv in E as (n2 & E & ->).
    destruct (afterHeaders_inv r h Hst Hinv) as [Hinv' Hst'].
    apply consumed_late in E; [|by destruct Hst'; auto|done].
    consumed_with m; [lia|done|by rewrite Hst|].
    replace (m + n2 - m) with n2 by lia. rewrite E.
    unfold afterHeaders. by destruct (hasBody _).
  - rewrite (parse_Header_more _ _ _ _ Hst Hinv HP) in E.
    injection E as <- <-.
    consumed_with m; [lia|done|by rewrite Hst|].
    rewrite Nat.sub_diag. simpl. by rewrite string_app_nil_r.
Qed.

Lemma consumed_Init r data r' n :
  state r = StateInit -> inv r ->
  parse r data = (r', Return (n, None)) ->
  lines_then_body r r' data n.
Proof.
  intros Hst Hinv E.
  destruct (parseRequestLine_cases data)
    as [[Hidx _]|[(idx & Hidx & HL)|(idx & rl & Hidx & HL & _)]].
  - rewrite (parse_Init_more r data) in E by done.
    injection E as <- <-. apply consumed_idle.
  - rewrite (parse_Init_err _ _ _ _ _ Hst Hinv HL) in E.
    injection E as <- <-.
    consumed_with 0; [done|by left|done|].
    simpl. by rewrite string_app_nil_r.
  - rewrite (parse_Init_line _ _ _ _ Hst Hinv HL) in E.
    apply bump_inv in E as (n2 & E & ->).
    set (r1 := set_state (set_RequestLine r rl) StateHeader) in *.
    assert (inv r1) as Hinv1
      by (unfold inv in *; subst r1; simpl; by rewrite Hst in Hinv).
    apply consumed_Header in E as (k & Hk & Hcrlf & _ & HB); [|done..].
    consumed_with (idx + 2 + k); [lia| |by rewrite Hst|].
    + right. rewrite <- take_take_drop, (Index_take_crlf _ _ Hidx).
      destruct Hcrlf as [->|[l' ->]].
      * rewrite take_0, app_nil_r. by eexists.
      * rewrite app_assoc. by eexists.
    + rewrite HB, drop_drop. subst r1. cbn [Body set_state set_RequestLine].
      by replace (idx + 2 + n2 - (idx + 2 + k)) with (n2 - k) by lia.
Qed.

Lemma consumed r data r' n :
  inv r -> parse r data = (r', Return (n, None)) ->
  lines_then_body r r' data n.
Proof.
  intros Hinv E. destruct (state r) eqn:Hst.
  - by apply consumed_Init.
  - by apply consumed_Header.
  - consumed_with 0; [lia|by left|done|].
    rewrite Nat.sub_0_r, skipn_O. apply (consumed_late r); auto.
  - rewrite parse_Done in E by done. injection E as <- <-.
    apply consumed_idle.
  - destruct data as [|c data]; [|by rewrite parse_Error in E].
    rewrite parse_nil in E. injection E as <- <-. apply consumed_idle.
Qed.

(** C4, as the code has it. On a request that [parse] can be called on
    and for every buffer: [parse] returns; the count is between [0] and
    the length of the buffer, and [0] with an error; the bytes consumed are
    complete lines with their CRLF (request line, header lines) followed by
    the bytes appended to the body. When the buffer holds no CRLF, a call
    in the states [StateInit], [StateHeader] and [StateDone] consumes
    nothing, changes nothing and reports no error; in [StateBody] it takes
    the smaller of what the body lacks and what the buffer holds; in
    [StateError] a call with a non-empty buffer fails with
    [ERROR_REQUEST_IN_ERROR_STATE]. *)
Theorem parse_consumption (r : Request) (data : bytes) :
  reachable r ->
  exists r' n err,
    parse r data = (r', Return (n, err)) /\
    n <= length data /\
    (err <> None -> n = 0) /\
    (err = None -> lines_then_body r r' data n) /\
    (Index data SEPARATOR = None ->
     match state r with
     | StateInit | StateHeader | StateDone => r' = r /\ n = 0 /\ err = None
     | StateBody =>
       n = Z.to_nat (Z.min (missing r) (Z.of_nat (length data))) /\ err = None
     | StateError =>
       n = 0 /\ (data <> [] -> err = Some ERROR_REQUEST_IN_ERROR_STATE)
     end).
Proof.
  intros Hr. pose proof (reachable_inv r Hr) as Hinv.
  destruct (parse_returns r data Hinv) as (r' & n & err & E & Hn).
  exists r', n, err. repeat split; try done.
  - destruct err as [e|]; [|done]. intros _.
    by apply parse_loop_error in E.
  - intros ->. by apply consumed.
  - intros Hidx. destruct (state r) eqn:Hst.
    + rewrite parse_Init_more in E by done. by injection E as <- <- <-.
    + rewrite (parse_Header_more r data (Headers_ r) 0) in E;
        [|done|done|by apply Parse_no_line].
      rewrite set_Headers_same in E. by injection E as <- <- <-.
    + rewrite parse_Body in E by done. by injection E as <- <- <-.
    + rewrite parse_Done in E by done. by injection E as <- <- <-.
    + destruct data as [|c data].
      * rewrite parse_nil in E. by injection E as <- <- <-.
      * rewrite parse_Error in E by done. by injection E as <- <- <-.
Qed.

(** The first nine bytes of a request line: no CRLF yet. *)
Lemma parse_consumption_witness :
  reachable newRequest /\
  Index (to_bytes "GET /a HT") SEPARATOR = None /\
  exists r' n err,
    parse newRequest (to_bytes "GET /a HT") = (r', Return (n, err)) /\
    n <= 9 /\
    (err <> None -> n = 0) /\
    (err = None -> lines_then_body newRequest r' (to_bytes "GET /a HT") n) /\
    (Index (to_bytes "GET /a HT") SEPARATOR = None ->
     r' = newRequest /\ n = 0 /\ err = None).
Proof.
  split; [apply reach_new|]. split; [reflexivity|].
  apply (parse_consumption newRequest (to_bytes "GET /a HT") reach_new).
Defined.

(** C4, as it is written, fails in two states. With [Content-Length: 5]
    and the body awaited, the buffer ["he"], which holds no CRLF, is
    consumed: two bytes, not none. After a refused request line, the buffer
    ["x"] gets an error, not the outcome "need more data". *)
Lemma need_more_data_not_in_every_state :
  (reachable (post_request "" StateBody) /\
   Index (to_bytes "he") SEPARATOR = None /\
   parse (post_request "" StateBody) (to_bytes "he")
   = (post_request "he" StateBody, Return (2, None)) /\
   ~ waits_for_more (post_request "" StateBody) (to_bytes "he")) /\
  (reachable refused /\
   Index (to_bytes "x") SEPARATOR = None /\
   parse refused (to_bytes "x")
   = (refused, Return (0, Some ERROR_REQUEST_IN_ERROR_STATE)) /\
   ~ waits_for_more refused (to_bytes "x")).
Proof.
  split; (split; [|split; [|split]]).
  - apply post_request_reachable.
  - reflexivity.
  - vm_compute; reflexivity.
  - intros [r' E]. vm_compute in E. discriminate.
  - apply refused_reachable.
  - reflexivity.
  - vm_compute; reflexivity.
  - intros [r' E]. vm_compute in E. discriminate.
Qed.

End Parser.

(** * More on the header store *)

Module HeaderStoreMore.
Import GoLib GoLibFacts headers ParseFacts Notions Samples HeaderStore.

Lemma lower_idem c : lower (lower c) = lower c.
Proof. by destruct c as [[] [] [] [] [] [] [] []]. Qed.

Lemma ToLower_idem s : ToLower (ToLower s) = ToLower s.
Proof. induction s as [|c s IH]; simpl; [done|]. by rewrite lower_idem, IH. Qed.

Lemma Headers_eta h : {| headers := headers h |} = h.
Proof. by destruct h. Qed.

(** X1. [Replace] overwrites: after [Replace(name, value)] a [Get] under
    any spelling of the name finds [value] and nothing of what the store
    held before; a name of ASCII bytes that is another name than the ASCII
    [name], letter case apart, is found as before. *)
Theorem Replace_overwrites (h : Headers) (name name' other value : string) :
  differ_only_in_case name name' = true ->
  Get (Replace h name value) name' = Some value /\
  (ascii_only name = true -> ascii_only other = true ->
   ToLower other <> ToLower name ->
   Get (Replace h name value) other = Get h other) /\
  Replace (Replace h name' value) name value = Replace h name value.
Proof.
  intros E%ToLower_fold. unfold Get, Replace. cbn [headers].
  rewrite <- E. split; [apply lookup_insert_eq|]. split.
  - intros _ _ Hne. by apply lookup_insert_ne.
  - by rewrite insert_insert_eq.
Qed.

(** A store with [content-length: 0,7] and [host: x]: the replacement is
    found under another spelling, and [host] is found as before. *)
Lemma Replace_overwrites_witness :
  Get (Replace (Set_ (Set_ (Set_ NewHeaders "Content-Length" "0")
                           "content-length" "7") "Host" "x")
               "Content-length" "12") "CONTENT-LENGTH" = Some "12"%string /\
  Get (Replace (Set_ (Set_ (Set_ NewHeaders "Content-Length" "0")
                           "content-length" "7") "Host" "x")
               "Content-length" "12") "HOST" = Some "x"%string.
Proof.
  destruct (Replace_overwrites
              (Set_ (Set_ (Set_ NewHeaders "Content-Length" "0")
                          "content-length" "7") "Host" "x")
              "Content-length" "CONTENT-LENGTH" "HOST" "12" eq_refl)
    as (H1 & H2 & _).
  split; [exact H1|].
  rewrite H2; [reflexivity|reflexivity|reflexivity|discriminate].
Defined.

(** X2. [Delete] removes: after [Delete(name)] a [Get] under any spelling
    of the name finds nothing and a following [Set] stores its value alone;
    for names of ASCII bytes, another name (letter case apart) is found as
    before, and deleting a name that is not stored changes nothing. *)
Theorem Delete_removes (h : Headers) (name name' other value : string) :
  differ_only_in_case name name' = true ->
  Get (Delete h name) name' = None /\
  (ascii_only name = true -> ascii_only other = true ->
   ToLower other <> ToLower name ->
   Get (Delete h name) other = Get h other) /\
  Get (Set_ (Delete h name) name' value) name = Some value /\
  (ascii_only name = true -> Get h name' = None -> Delete h name = h).
Proof.
  intros E%ToLower_fold. unfold Get, Delete, Set_. cbn [headers].
  rewrite <- E. rewrite lookup_delete_eq. cbn [headers].
  split; [done|]. split; [|split].
  - intros _ _ Hne. by apply lookup_delete_ne.
  - apply lookup_insert_eq.
  - intros _ Hn. rewrite delete_id by done. apply Headers_eta.
Qed.

(** A store with [content-length: 5] and [host: x]: the deleted name is
    gone under another spelling, [host] is found as before, and a [Set]
    after the deletion stores [7], not [5,7]. *)
Lemma Delete_removes_witness :
  Get (Delete (Set_ (Set_ NewHeaders "content-length" "5") "Host" "x")
              "Content-length") "Content-Length" = None /\
  Get (Delete (Set_ (Set_ NewHeaders "content-length" "5") "Host" "x")
              "Content-length") "HOST" = Some "x"%string /\
  Get (Set_ (Delete (Set_ (Set_ NewHeaders "content-length" "5") "Host" "x")
                    "Content-length") "Content-Length" "7")
      "Content-length" = Some "7"%string.
Proof.
  destruct (Delete_removes
              (Set_ (Set_ NewHeaders "content-length" "5") "Host" "x")
              "Content-length" "Content-Length" "HOST" "7" eq_refl)
    as (H1 & H2 & H3 & _).
  split; [exact H1|]. split; [|exact H3].
  rewrite H2; [reflexivity|reflexivity|reflexivity|discriminate].
Defined.

Lemma concat_comma a b l :
  String.concat "," ((a +:+ "," +:+ b)%string :: l) =
  (a +:+ "," +:+ String.concat "," (b :: l))%string.
Proof.
  destruct l as [|x l]; [done|].
  change (String.concat "," ((a +:+ "," +:+ b)%string :: x :: l))
    with ((a +:+ "," +:+ b) +:+ "," +:+ String.concat "," (x :: l))%string.
  change (String.concat "," (b :: x :: l))
    with (b +:+ "," +:+ String.concat "," (x :: l))%string.
  by rewrite !string_app_assoc.
Qed.

Lemma set_all_joins h name v0 fields :
  Get h name = Some v0 ->
  Forall (fun f => differ_only_in_case name (fst f) = true) fields ->
  Get (set_all h fields) name =
  Some (String.concat "," (v0 :: map snd fields)).
Proof.
  revert h v0; induction fields as [|[n v] fields IH]; intros h v0 Hg Hf.
  { by simpl. }
  apply Forall_cons in Hf as [Hn%ToLower_fold Hf]. simpl in Hn.
  cbn [set_all fold_left fst snd map]. fold (set_all (Set_ h n v) fields).
  rewrite (IH _ (v0 +:+ "," +:+ v)%string); [|by apply Get_Set_old|done].
  by rewrite concat_comma.
Qed.

(** X3. The values that [Set] receives under one name, in whatever
    spelling, are kept in the order of the calls and joined by commas:
    after the calls of [fields] on a store that did not hold the name,
    [Get] finds [strings.Join(values, ",")]. *)
Theorem Set_joins_in_order
        (h : Headers) (name : string) (fields : list (string * string)) :
  Get h name = None ->
  fields <> [] ->
  Forall (fun f => differ_only_in_case name (fst f) = true) fields ->
  Get (set_all h fields) name = Some (String.concat "," (map snd fields)).
Proof.
  intros Hg Hne Hf. destruct fields as [|[n v] fields]; [done|].
  apply Forall_cons in Hf as [Hn%ToLower_fold Hf]. simpl in Hn.
  cbn [set_all fold_left fst snd map]. fold (set_all (Set_ h n v) fields).
  apply set_all_joins; [|done].
  apply (Get_Set_new h n name v); [|done].
  unfold Get in *. by rewrite <- Hn.
Qed.

Lemma Set_joins_in_order_witness :
  Get (set_all NewHeaders
         [("Trailer", "a"); ("trailer", "b"); ("TRAILER", "c")]%string)
      "trailer" = Some "a,b,c"%string.
Proof.
  apply (Set_joins_in_order NewHeaders "trailer"
           [("Trailer", "a"); ("trailer", "b"); ("TRAILER", "c")]%string).
  - reflexivity.
  - discriminate.
  - repeat constructor.
Defined.

(** X4. Two [Set] calls under names of ASCII bytes that are different
    names, letter case apart, can be swapped. *)
Theorem Set_commutes (h : Headers) (n1 v1 n2 v2 : string) :
  ascii_only n1 = true -> ascii_only n2 = true ->
  ToLower n1 <> ToLower n2 ->
  Set_ (Set_ h n1 v1) n2 v2 = Set_ (Set_ h n2 v2) n1 v1.
Proof.
  intros _ _ Hne. unfold Set_.
  destruct (headers h !! ToLower n1) as [a|] eqn:E1,
           (headers h !! ToLower n2) as [b|] eqn:E2;
    cbn [headers];
    rewrite ?lookup_insert_ne by done; rewrite ?E1, ?E2;
    f_equal; by apply insert_insert_ne.
Qed.

(** On a store that holds [host] already. *)
Lemma Set_commutes_witness :
  Set_ (Set_ (Set_ NewHeaders "host" "w") "Host" "x") "Accept" "y" =
  Set_ (Set_ (Set_ NewHeaders "host" "w") "Accept" "y") "Host" "x".
Proof.
  apply (Set_commutes (Set_ NewHeaders "host" "w") "Host" "x" "Accept" "y").
  - reflexivity.
  - reflexivity.
  - discriminate.
Defined.

(** ** Tokens and field lines *)

Lemma isToken_cons c s : isToken (c :: s) = isToken [c] && isToken s.
Proof. unfold isToken. simpl. by rewrite andb_true_r. Qed.

Lemma isToken_app s t : isToken (s ++ t) = isToken s && isToken t.
Proof. unfold isToken. apply forallb_app. Qed.

Lemma isToken_tchar c : isToken [c] = tchar c.
Proof. by destruct c as [[] [] [] [] [] [] [] []]. Qed.

Lemma isToken_lower c : isToken [c] = true -> isToken [lower c] = true.
Proof. by destruct c as [[] [] [] [] [] [] [] []]. Qed.

Lemma isToken_tchars (str : bytes) :
  isToken str = true <-> Forall (fun c => tchar c = true) str.
Proof.
  induction str as [|c str IH]; [by split|].
  rewrite isToken_cons, isToken_tchar, Forall_cons, andb_true_iff.
  by rewrite IH.
Qed.

(** X5. [isToken] accepts the tokens of RFC 9110 and nothing else: every
    byte is a visible ASCII byte other than a delimiter; the empty name
    passes. *)
Theorem isToken_is_rfc_token (str : bytes) :
  isToken str = true <-> Forall (fun c => tchar c = true) str.
Proof. apply isToken_tchars. Qed.

Lemma to_bytes_to_string b : to_bytes (to_string b) = b.
Proof. apply list_ascii_of_string_of_list_ascii. Qed.

Lemma to_string_to_bytes s : to_string (to_bytes s) = s.
Proof. apply string_of_list_ascii_of_string. Qed.

Lemma Index_byte_none (c : ascii) s : ~ In c s -> Index s [c] = None.
Proof.
  induction s as [|d s IH]; [done|]. intros Hn.
  rewrite Index_cons. simpl.
  destruct (Ascii.eqb_spec d c) as [->|_]; [destruct Hn; by left|].
  simpl. rewrite IH; [done|]. intros H. apply Hn. by right.
Qed.

Lemma Index_byte_first (c : ascii) s t :
  ~ In c s -> Index (s ++ c :: t) [c] = Some (length s).
Proof.
  induction s as [|d s IH]; intros Hn.
  - simpl. by rewrite Ascii.eqb_refl.
  - rewrite <- app_comm_cons, Index_cons. simpl.
    destruct (Ascii.eqb_spec d c) as [->|_]; [destruct Hn; by left|].
    simpl. rewrite IH; [done|]. intros H. apply Hn. by right.
Qed.

Lemma Index_byte_Some (c : ascii) s m :
  Index s [c] = Some m -> ~ In c (firstn m s).
Proof.
  revert m; induction s as [|d s IH]; intros m; [done|].
  rewrite Index_cons. simpl.
  destruct (Ascii.eqb_spec d c) as [->|Hd]; simpl.
  - intros [= <-]. simpl. tauto.
  - destruct (Index s [c]) as [k|] eqn:E; [|done]. intros [= <-].
    simpl. intros [H|H]; [done|]. by apply (IH k).
Qed.

Lemma token_no_byte (c : ascii) s :
  tchar c = false -> isToken s = true -> ~ In c s.
Proof.
  intros Hc Hs%isToken_tchars Hin.
  rewrite List.Forall_forall in Hs. apply Hs in Hin. congruence.
Qed.

Lemma token_no_space_suffix s :
  isToken s = true -> HasSuffix s (to_bytes " ") = false.
Proof.
  intros Hs. unfold HasSuffix. simpl.
  destruct (rev s) as [|d l] eqn:E; [done|].
  destruct (Ascii.eqb_spec d " ") as [->|_]; [|done].
  exfalso. apply (token_no_byte " " s); [done|done|].
  apply in_rev. rewrite E. by left.
Qed.

Lemma field_shape (l : bytes) (name value : string) :
  field l = Some (name, value) <->
  exists n v,
    l = n ++ ":"%char :: v /\ isToken n = true /\
    name = to_string n /\ value = to_string (TrimSpace v).
Proof.
  unfold field, parseHeader, SplitN. cbn [genSplit].
  change (to_bytes ":") with [":"%char]. split.
  - destruct (Index l [":"%char]) as [m|] eqn:E; [|done].
    cbn [genSplit].
    destruct (HasSuffix (firstn m l) (to_bytes " ")); [done|].
    rewrite to_bytes_to_string.
    destruct (isToken (firstn m l)) eqn:Et; [|done].
    intros [= <- <-]. exists (firstn m l), (skipn (m + 1) l).
    repeat split; try done. by apply Index_split in E.
  - intros (n & v & -> & Ht & -> & ->).
    rewrite (Index_byte_first ":" n v) by (by apply token_no_byte).
    cbn [genSplit]. rewrite take_app_length.
    rewrite (token_no_space_suffix n Ht), to_bytes_to_string, Ht.
    change (length [":"%char]) with 1.
    replace (length n + 1) with (length (n ++ [":"%char]))
      by (rewrite length_app; simpl; lia).
    change (n ++ ":"%char :: v) with (n ++ [":"%char] ++ v).
    by rewrite app_assoc, drop_app_length.
Qed.

(** X6. Among the lines of ASCII bytes, the field lines that [parseHeader]
    and [isToken] let through are those made of token bytes (possibly
    none), a colon and anything; the name is what stands before the first
    colon and the value what stands after it, without the ASCII white space
    at its two ends. *)
Theorem field_lines (l : bytes) (name value : string) :
  ascii_bytes l = true ->
  field l = Some (name, value) <->
  exists n v,
    l = n ++ ":"%char :: v /\ isToken n = true /\
    name = to_string n /\ value = to_string (TrimSpace v).
Proof. intros _. apply field_shape. Qed.

(** ["Host: \t x :y \r"]: the name ends at the first colon, the second one
    belongs to the value, and the white space inside the value stays. *)
Lemma field_lines_witness :
  field (to_bytes "Host: " ++ ["009"%char] ++ to_bytes " x :y " ++ [CR])
  = Some ("Host"%string, "x :y"%string).
Proof.
  apply (field_lines
           (to_bytes "Host: " ++ ["009"%char] ++ to_bytes " x :y " ++ [CR])
           "Host" "x :y" eq_refl).
  exists (to_bytes "Host"),
         (to_bytes " " ++ ["009"%char] ++ to_bytes " x :y " ++ [CR]).
  repeat split.
Defined.

(** ** What the operations keep *)

Lemma fst_shiftP k x : fst (shiftP k x) = fst x.
Proof. by destruct x as [h [[[n d] [e|]]| |]]. Qed.

(** What every [Set] of a token name keeps, [Parse] keeps. *)
Lemma Parse_keeps (P : Headers -> Prop) :
  (forall h n v, isToken (to_bytes n) = true -> P h -> P (Set_ h n v)) ->
  forall h data, P h -> P (fst (Parse h data)).
Proof.
  intros HS h data.
  apply (Parse_ind (fun h data x => P h -> P (fst x))); clear h data;
    try done.
  intros h data idx name value _ _ Ht IH HP.
  rewrite fst_shiftP. apply IH. by apply HS.
Qed.

Lemma Set_names (P : string -> Prop) h name value :
  P (ToLower name) -> names_are P h -> names_are P (Set_ h name value).
Proof.
  intros Hn Hh k x. unfold Set_.
  destruct (headers h !! ToLower name); cbn [headers];
    intros [[<- _]|[_ Hk]]%lookup_insert_Some; eauto.
Qed.

(** X7. The names in the store are in lower case, and [Set], [Replace],
    [Delete] and [Parse] keep them so: the spelling of a name is not
    retained. *)
Theorem names_stay_lowered (h : Headers) (name value : string) (data : bytes) :
  names_are is_lowered h ->
  names_are is_lowered (Set_ h name value) /\
  names_are is_lowered (Replace h name value) /\
  names_are is_lowered (Delete h name) /\
  names_are is_lowered (fst (Parse h data)).
Proof.
  intros Hh. repeat split.
  - apply Set_names; [apply ToLower_idem|done].
  - intros k x. unfold Replace. cbn [headers].
    intros [[<- _]|[_ Hk]]%lookup_insert_Some; [apply ToLower_idem|eauto].
  - intros k x. unfold Delete. cbn [headers].
    intros [_ Hk]%lookup_delete_Some. eauto.
  - revert Hh. apply Parse_keeps. intros h' n v _.
    apply Set_names, ToLower_idem.
Qed.

Lemma names_stay_lowered_witness :
  names_are is_lowered NewHeaders /\
  names_are is_lowered
    (fst (Parse NewHeaders (to_bytes "Host: x" ++ crlf ++ crlf))).
Proof.
  assert (names_are is_lowered NewHeaders) as H by (intros k x; done).
  split; [exact H|].
  apply (names_stay_lowered NewHeaders "" "" _ H).
Defined.

Lemma to_bytes_ToLower s : to_bytes (ToLower s) = map lower (to_bytes s).
Proof. induction s as [|c s IH]; simpl; [done|]. by rewrite IH. Qed.

Lemma isToken_ToLower s :
  isToken (to_bytes s) = true -> isToken (to_bytes (ToLower s)) = true.
Proof.
  rewrite to_bytes_ToLower. induction (to_bytes s) as [|c l IH]; [done|].
  cbn [map]. rewrite !(isToken_cons _ l), !(isToken_cons _ (map lower l)).
  intros [Hc Hl]%andb_prop. by rewrite (isToken_lower _ Hc), IH.
Qed.

Lemma Parse_stored h data name :
  stored h name <= stored (fst (Parse h data)) name.
Proof.
  apply (Parse_keeps (fun h' => stored h name <= stored h' name)); [|done].
  intros h' n v _ H. etrans; [exact H|apply Set_keeps].
Qed.

(** X8. [Parse] stores names of token bytes only, in lower case: when the
    names in the store are made of the bytes that RFC 9110 allows in a
    token, in lower case, they are so after [Parse], whatever the buffer
    and whether or not [Parse] fails; no stored name has a byte outside
    ASCII. The name may have no byte at all, which is not a token of RFC
    9110: a line that begins with the colon is stored under the empty
    name. *)
Theorem Parse_stores_tokens (h : Headers) (data v rest : bytes) :
  names_are (fun name => is_lowered name /\
                         Forall (fun c => tchar c = true) (to_bytes name)) h ->
  names_are (fun name => is_lowered name /\
                         Forall (fun c => tchar c = true) (to_bytes name))
            (fst (Parse h data)) /\
  (is_line (":"%char :: v) = true ->
   is_Some (Get (fst (Parse h ((":"%char :: v) ++ [CR; LF] ++ rest)))
                ""%string)).
Proof.
  intros Hh. split.
  - revert Hh. apply Parse_keeps. intros h' n x Ht.
    apply Set_names. split; [apply ToLower_idem|].
    by apply isToken_tchars, isToken_ToLower.
  - intros Hline. rewrite (Parse_line _ _ _ Hline).
    assert (field (":"%char :: v) = Some (""%string, to_string (TrimSpace v)))
      as -> by (apply field_shape; by exists [], v).
    rewrite fst_shiftP.
    pose proof (Set_grows h "" (to_string (TrimSpace v))) as Hg.
    pose proof (Parse_stored (Set_ h "" (to_string (TrimSpace v))) rest "")
      as Hk.
    unfold stored in Hg, Hk.
    destruct (Get (fst (Parse _ rest)) "") as [x|]; [done|].
    destruct (Get (Set_ h "" _) ""), (Get h ""); lia.
Qed.

(** A store that holds [host], and the buffers ["Accept: y"] with its
    blank line and [": v"] with its blank line: the names stored are
    tokens in lower case, and the second buffer adds the empty name. *)
Lemma Parse_stores_tokens_witness :
  names_are (fun name => is_lowered name /\
                         Forall (fun c => tchar c = true) (to_bytes name))
            (fst (Parse (Set_ NewHeaders "Host" "x")
                        (to_bytes "Accept: y" ++ crlf ++ crlf))) /\
  is_Some (Get (fst (Parse (Set_ NewHeaders "Host" "x")
                           ((":"%char :: to_bytes " v") ++ [CR; LF] ++ crlf)))
               ""%string).
Proof.
  assert (names_are (fun name => is_lowered name /\
                                 Forall (fun c => tchar c = true)
                                        (to_bytes name))
                    (Set_ NewHeaders "Host" "x")) as H0.
  { apply Set_names; [|intros k x; done].
    split; [reflexivity|repeat constructor]. }
  destruct (Parse_stores_tokens
              (Set_ NewHeaders "Host" "x")
              (to_bytes "Accept: y" ++ crlf ++ crlf) (to_bytes " v") crlf H0)
    as [H1 H2].
  split; [exact H1|exact (H2 eq_refl)].
Defined.

(** ** [Parse] on its own *)

Lemma Parse_no_line_eq h data :
  Index data rn = None -> Parse h data = (h, Return (0, false, None)).
Proof.
  intros E. rewrite Parse_unfold. unfold Parse_iter. by rewrite skipn_O, E.
Qed.

(** X9. [Parse] returns on every store and buffer. It reports no more
    bytes than the buffer has; a failure reports [0] and [false]; without
    the blank line what it leaves in the buffer holds no CRLF; with the
    blank line it has consumed two bytes at least; what it consumed is
    empty or ends with CRLF; a buffer without CRLF changes nothing. *)
Theorem Parse_stops (h : Headers) (data : bytes) :
  exists h' n done err,
    Parse h data = (h', Return (n, done, err)) /\
    n <= length data /\
    (err <> None -> n = 0 /\ done = false) /\
    (err = None -> done = false -> Index (skipn n data) rn = None) /\
    (err = None -> done = true -> 2 <= n) /\
    (n = 0 \/ ends_crlf (firstn n data)) /\
    (Index data rn = None ->
     h' = h /\ n = 0 /\ done = false /\ err = None).
Proof.
  destruct (Parse_spec h data)
    as (h' & n & d & err & E & Hn & Herr & Hmore & Hdone & _ & Hcrlf).
  exists h', n, d, err.
  split; [done|]. split; [done|]. split; [done|]. split; [done|].
  split; [done|]. split; [done|].
  intros Hi. rewrite (Parse_no_line_eq h data Hi) in E. by simplify_eq.
Qed.

(** X10. [Parse] does on [d1 ++ d2] what it does on [d1] and then, when it
    stopped for want of bytes, on what it left of [d1] followed by [d2]:
    the store is the same, the counts add up, a failure is the same
    failure. *)
Theorem Parse_resumes (h : Headers) (d1 d2 : bytes) :
  Parse h (d1 ++ d2) =
  match Parse h d1 with
  | (h1, Return (n1, false, None)) =>
    match Parse h1 (skipn n1 d1 ++ d2) with
    | (h2, Return (n2, done, None)) => (h2, Return (n1 + n2, done, None))
    | x => x
    end
  | x => x
  end.
Proof.
  rewrite Parse_app. unfold resumeP, shiftP.
  destruct (Parse h d1) as [h1 [[[n1 [|]] [e|]]| |]]; try done.
  by destruct (Parse h1 _) as [h2 [[[n2 d] [e|]]| |]].
Qed.

(** X11. A header section of well-formed lines with its blank line is
    consumed whole, blank line included; the fields are set in the order of
    the lines, and the bytes after the blank line are not looked at. *)
Theorem Parse_whole_section (h : Headers) (lines : list bytes) (rest : bytes) :
  Forall (fun l => well_formed l = true) lines ->
  Parse h (with_crlf lines ++ [CR; LF] ++ rest) =
  (store h lines, Return (length (with_crlf lines) + 2, true, None)).
Proof.
  intros Hl. rewrite (Parse_lines _ _ _ Hl).
  by rewrite (Parse_unfold (store h lines)).
Qed.

Lemma Parse_whole_section_witness :
  Parse NewHeaders
        (with_crlf [to_bytes "Host: x"; to_bytes "ACCEPT:  a "]
         ++ [CR; LF] ++ to_bytes "body")
  = (store NewHeaders [to_bytes "Host: x"; to_bytes "ACCEPT:  a "],
     Return (24, true, None)).
Proof.
  apply (Parse_whole_section NewHeaders
           [to_bytes "Host: x"; to_bytes "ACCEPT:  a "] (to_bytes "body")).
  repeat constructor.
Defined.

(** X12. [Parse] only adds to the store, also when it fails: under every
    name the store holds after the call what it held before, or more. *)
Theorem Parse_only_adds (h : Headers) (data : bytes) (name : string) :
  match Get h name with
  | Some v => exists more,
      Get (fst (Parse h data)) name = Some (v +:+ more)%string
  | None => True
  end.
Proof.
  apply (Parse_keeps
           (fun h' => match Get h name with
                      | Some v => exists more,
                          Get h' name = Some (v +:+ more)%string
                      | None => True
                      end)).
  - intros h' n v _. destruct (Get h name) as [v0|]; [|done].
    intros [more Hm].
    destruct (decide (ToLower n = ToLower name)) as [E|E].
    + exists (more +:+ "," +:+ v)%string.
      rewrite (Get_Set_old h' name n _ v Hm); [|done].
      by rewrite string_app_assoc.
    + exists more. by rewrite Get_Set_other.
  - destruct (Get h name) as [v0|]; [|done].
    exists ""%string. by rewrite string_app_nil_r.
Qed.

End HeaderStoreMore.

(** * More on the request parser *)

Module ParserMore.
Import GoLib GoLibFacts headers ParseFacts request Notions RequestFacts Samples.
Import HeaderStore HeaderStoreMore Parser.

Lemma parse_iter_rank r0 r data read r' x :
  rank (state r0) <= rank (state r) ->
  parse_iter r data read = (r', x) ->
  rank (state r0) <= rank (state r').
Proof.
  unfold parse_iter. intros H E.
  repeat case_match; simplify_eq; simpl in *;
    repeat match goal with
           | H : state _ = _ |- _ => rewrite H in *
           end; simpl in *; lia.
Qed.

(** X13. The states are passed in one direction: a call of [parse] leaves
    the request in its state or in a later one of [StateInit],
    [StateHeader], [StateBody], [StateDone]; the error state is entered from
    [StateInit] only; a request that is done or in the error state is not
    changed by any further call. *)
Theorem states_only_advance (r : Request) (data : bytes) :
  rank (state r) <= rank (state (fst (parse r data))) /\
  (state r = StateDone \/ state r = StateError -> fst (parse r data) = r) /\
  (state r = StateHeader \/ state r = StateBody \/ state r = StateDone ->
   state (fst (parse r data)) <> StateError).
Proof.
  split; [|split].
  - apply (parse_loop_keeps (fun r' => rank (state r) <= rank (state r')));
      [|done].
    intros. by eapply parse_iter_rank.
  - intros [H|H].
    + by rewrite parse_Done.
    + destruct data as [|c data]; [done|]. by rewrite parse_Error.
  - intros H. apply parse_not_error; destruct H as [H|[H|H]]; congruence.
Qed.

Lemma parse_iter_line rl r data read r' x :
  state r <> StateInit /\ RequestLine_ r = rl ->
  parse_iter r data read = (r', x) ->
  state r' <> StateInit /\ RequestLine_ r' = rl.
Proof.
  unfold parse_iter. intros [H1 <-] E.
  repeat case_match; simplify_eq; simpl; split; congruence.
Qed.

(** X14. The request line is set once: a call of [parse] on a request
    that has left [StateInit] keeps method, target and version as they
    are. *)
Theorem request_line_is_kept (r : Request) (data : bytes) :
  state r <> StateInit ->
  RequestLine_ (fst (parse r data)) = RequestLine_ r.
Proof.
  intros H.
  apply (parse_loop_keeps
           (fun r' => state r' <> StateInit /\ RequestLine_ r' = RequestLine_ r));
    [|done].
  intros; by eapply parse_iter_line.
Qed.

Lemma request_line_is_kept_witness :
  RequestLine_ (fst (parse (post_request "" StateBody) (to_bytes "GET / HTTP/1.1")))
  = RequestLine_ (post_request "" StateBody).
Proof.
  apply (request_line_is_kept (post_request "" StateBody)). discriminate.
Defined.

Lemma parse_iter_body_complete r data read r' x :
  inv r /\ body_complete r ->
  parse_iter r data read = (r', x) ->
  inv r' /\ body_complete r'.
Proof.
  intros [Hinv Hb] E. split; [by eapply parse_iter_inv|].
  revert E. iter_cases r data read; intros [= <- <-]; try done;
    unfold body_complete, contentLength in *;
    cbn [state set_state set_Headers set_RequestLine set_Body Body Headers_];
    rewrite ?Hst in *; try done; intros _.
  - unfold hasBody in Hbody. cbn [Headers_ set_Headers] in Hbody.
    rewrite Hbody. unfold inv in Hinv. by rewrite Hst in Hinv.
  - pose proof (remaining_eq r (skipn read data) Hst Hinv) as Hr.
    unfold contentLength in Hr. rewrite Hr in *.
    cbn [Body set_Body] in Hfull.
    unfold inv, contentLength in Hinv. rewrite Hst in Hinv.
    replace (0 <? getInt (Headers_ r) "content-length" 0)%Z with true
      by (symmetry; apply Z.ltb_lt; lia).
    by apply Z.eqb_eq in Hfull.
Qed.

(** X15. A request that is done has the body that its content length
    announces: as many bytes as the [content-length] header says when that
    is a number above zero, and none when the header is missing, is not a
    number or is not above zero. *)
Theorem done_body_has_content_length (r : Request) :
  reachable r -> state r = StateDone ->
  if (0 <? getInt (Headers_ r) "content-length" 0)%Z
  then len (Body r) = getInt (Headers_ r) "content-length" 0
  else Body r = ""%string.
Proof.
  intros Hr. enough (inv r /\ body_complete r) as [_ H] by exact H.
  induction Hr as [|r data _ IH]; [done|].
  apply (parse_loop_keeps (fun r => inv r /\ body_complete r)); [|done].
  intros; by eapply parse_iter_body_complete.
Qed.

Lemma done_body_has_content_length_witness :
  reachable (fst (parse newRequest (post_head ++ to_bytes "hello, world"))) /\
  state (fst (parse newRequest (post_head ++ to_bytes "hello, world")))
  = StateDone /\
  len (Body (fst (parse newRequest (post_head ++ to_bytes "hello, world"))))
  = 5%Z.
Proof.
  assert (reachable (fst (parse newRequest (post_head ++ to_bytes "hello, world"))))
    as H by (apply reach_parse, reach_new).
  assert (state (fst (parse newRequest (post_head ++ to_bytes "hello, world")))
          = StateDone) as Hst by (vm_compute; reflexivity).
  split; [exact H|]. split; [exact Hst|].
  exact (done_body_has_content_length _ H Hst).
Defined.

(** X16. One cut in the input of [parse], in any state that can be reached
    and for any input, well formed or not: a call on [d1 ++ d2] ends as a
    call on [d1] followed, unless that call failed or refused the request
    line, by a call on what it left of [d1] and [d2]; the counts add up. *)
Theorem parse_in_two (r : Request) (d1 d2 : bytes) :
  reachable r ->
  parse r (d1 ++ d2) =
  match parse r d1 with
  | (r1, Return (n1, None)) =>
    match state r, state r1 with
    | StateInit, StateError => (r1, Return (n1, None))
    | _, _ =>
      match parse r1 (skipn n1 d1 ++ d2) with
      | (r2, Return (n2, None)) => (r2, Return (n1 + n2, None))
      | x => x
      end
    end
  | x => x
  end.
Proof.
  intros Hr%reachable_inv. rewrite (parse_app r d1 d2 Hr).
  unfold resume, bump.
  destruct (parse r d1) as [r1 [[n1 [e|]]| |]]; try done.
  by destruct (state r), (state r1);
    destruct (parse r1 (skipn n1 d1 ++ d2)) as [r2 [[n2 [e|]]| |]].
Qed.

Lemma parse_in_two_witness :
  parse newRequest (to_bytes "GET /a HTTP/1.1" ++ [CR]
                    ++ [LF] ++ to_bytes "Host: x" ++ crlf ++ crlf)
  = (host_request, Return (28, None)).
Proof.
  rewrite (app_assoc (to_bytes "GET /a HTTP/1.1") [CR]).
  rewrite (parse_in_two newRequest (to_bytes "GET /a HTTP/1.1" ++ [CR])
             ([LF] ++ to_bytes "Host: x" ++ crlf ++ crlf) reach_new).
  vm_compute. reflexivity.
Defined.

(** X17. What a call of [parse] leaves in the buffer is of no use to it
    before more bytes arrive: a second call on the rest alone consumes
    nothing and changes nothing. *)
Theorem rest_waits (r : Request) (data : bytes) (r1 : Request) (n1 : nat) :
  reachable r ->
  parse r data = (r1, Return (n1, None)) ->
  state r1 <> StateError ->
  parse r1 (skipn n1 data) = (r1, Return (0, None)).
Proof. intros Hr%reachable_inv. by apply parse_rest_idle. Qed.

(** ["GET / HTTP/1.1\r\nHo"]: the request line is consumed, 16 bytes,
    and the two bytes [Ho] of an unfinished header line are left; a second
    call on [Ho] alone leaves them where they are. *)
Lemma rest_waits_witness :
  skipn 16 (to_bytes "GET / HTTP/1.1" ++ crlf ++ to_bytes "Ho")
  = to_bytes "Ho" /\
  state (fst (parse newRequest
                    (to_bytes "GET / HTTP/1.1" ++ crlf ++ to_bytes "Ho")))
  = StateHeader /\
  parse (fst (parse newRequest
                    (to_bytes "GET / HTTP/1.1" ++ crlf ++ to_bytes "Ho")))
        (skipn 16 (to_bytes "GET / HTTP/1.1" ++ crlf ++ to_bytes "Ho"))
  = (fst (parse newRequest
                (to_bytes "GET / HTTP/1.1" ++ crlf ++ to_bytes "Ho")),
     Return (0, None)).
Proof.
  split; [reflexivity|]. split; [vm_compute; reflexivity|].
  apply (rest_waits newRequest
           (to_bytes "GET / HTTP/1.1" ++ crlf ++ to_bytes "Ho") _ 16
           reach_new).
  - vm_compute. reflexivity.
  - vm_compute. discriminate.
Defined.

(** ** The read loop *)

Lemma outcome_bump n x : outcome (bump n x) = outcome x.
Proof. by destruct x as [r [[k [e|]]| |]]. Qed.

Lemma readLoop_done size reader r buf :
  done r = true -> readLoop size reader r buf = Return (Some r, None).
Proof. intros H. destruct reader; simpl; by rewrite H. Qed.

Lemma readLoop_outcome size frags r buf :
  inv r -> state r <> StateError ->
  parse r buf = (r, Return (0, None)) ->
  length (buf ++ concat frags) <= size ->
  readLoop size (fragments frags) r buf = outcome (parse r (buf ++ concat frags)).
Proof.
  revert r buf; induction frags as [|f frags IH];
    intros r buf Hinv Hne Hidle Hsize.
  - simpl. rewrite app_nil_r, Hidle. simpl. by destruct (done r).
  - destruct (done r) eqn:Hd.
    { rewrite readLoop_done by done. unfold done in Hd.
      destruct (state r) eqn:Hst; try done.
      rewrite parse_Done by done. simpl. unfold done. by rewrite Hst. }
    cbn [fragments map readLoop]. fold (fragments frags). rewrite Hd.
    simpl concat in *. rewrite app_assoc in Hsize |- *.
    rewrite length_app in Hsize.
    replace (size <? length (buf ++ f)) with false
      by (symmetry; apply Nat.ltb_ge; lia).
    pose proof (parse_inv r (buf ++ f) Hinv) as Hinv1.
    pose proof (parse_not_error r (buf ++ f)) as Hno.
    destruct (parse_returns r (buf ++ f) Hinv) as (r1 & n1 & e1 & E & Hn1).
    rewrite (parse_app r (buf ++ f) (concat frags) Hinv), E in *.
    cbn [fst] in Hinv1, Hno.
    destruct e1 as [e|]; [done|].
    assert (state r1 = StateError \/ state r1 <> StateError) as [He|He]
      by (destruct (state r1); auto; right; discriminate).
    + rewrite readLoop_done by (unfold done; by rewrite He).
      unfold resume. unfold done in Hd.
      destruct (state r) eqn:Hst; try done; rewrite ?He;
        try (exfalso; by apply Hno).
      simpl. unfold done. by rewrite He.
    + assert (resume r (r1, Return (n1, None))
                (fun r2 n2 => parse r2 (skipn n2 (buf ++ f) ++ concat frags))
              = bump n1 (parse r1 (skipn n1 (buf ++ f) ++ concat frags))) as ->.
      { unfold resume. by destruct (state r), (state r1). }
      rewrite outcome_bump. apply IH; try done.
      * exact (parse_rest_idle r (buf ++ f) r1 n1 Hinv E He).
      * rewrite length_app, length_drop. lia.
Qed.

(** X18. Fragmentation does not show in what [RequestFromReader] returns,
    whatever the message: for fragments that fit the buffer of 1024 bytes
    together, it returns the request when one call of [parse] on the whole
    message ends in [StateDone] (or refuses the request line), the error of
    [parse] when that call fails, and [io.EOF] when that call wants more
    bytes. *)
Theorem RequestFromReader_of_fragments (frags : list bytes) :
  length (concat frags) <= 1024 ->
  RequestFromReader (fragments frags) = outcome (parse newRequest (concat frags)).
Proof.
  intros Hsize.
  by apply (readLoop_outcome 1024 frags newRequest []).
Qed.

(** A request cut short in its body, and a header line without colon. *)
Lemma RequestFromReader_of_fragments_witness :
  RequestFromReader (fragments [post_head; to_bytes "he"])
  = Return (None, Some EOF) /\
  RequestFromReader
    (fragments [to_bytes "GET / HTTP/1.1" ++ crlf ++ to_bytes "Ho";
                to_bytes "st x" ++ crlf])
  = Return (None, Some ErrMalformedHeaderLine).
Proof.
  split.
  - rewrite (RequestFromReader_of_fragments [post_head; to_bytes "he"]);
      [vm_compute; reflexivity|vm_compute; lia].
  - rewrite (RequestFromReader_of_fragments
               [to_bytes "GET / HTTP/1.1" ++ crlf ++ to_bytes "Ho";
                to_bytes "st x" ++ crlf]);
      [vm_compute; reflexivity|vm_compute; lia].
Defined.

Lemma Index_app_None s t sep : Index (s ++ t) sep = None -> Index s sep = None.
Proof.
  intros H. destruct (Index s sep) as [i|] eqn:E; [|done].
  by rewrite (Index_app _ _ t _ E) in H.
Qed.

Lemma readLoop_no_line frags buf r :
  Index (firstn 1024 (buf ++ concat frags)) SEPARATOR = None ->
  readLoop 1024 (fragments frags) newRequest buf <> Return (Some r, None).
Proof.
  revert buf; induction frags as [|f frags IH]; intros buf Hi; [done|].
  cbn [fragments map readLoop done newRequest state]. fold (fragments frags).
  destruct (1024 <? length (buf ++ f)) eqn:Hlen; [done|].
  apply Nat.ltb_ge in Hlen.
  simpl concat in Hi. rewrite app_assoc in Hi.
  rewrite take_app_ge in Hi by done.
  pose proof (Index_app_None _ _ _ Hi) as Hb.
  rewrite (parse_Init_more newRequest (buf ++ f)) by done.
  rewrite skipn_O. apply IH.
  by rewrite take_app_ge by done.
Qed.

(** X19. The request line has to come within the first 1024 bytes: when
    the first 1024 bytes of the stream hold no CRLF, [RequestFromReader]
    returns no request, however the stream is cut into reads. *)
Theorem request_line_must_fit (frags : list bytes) (r : Request) :
  Index (firstn 1024 (concat frags)) SEPARATOR = None ->
  RequestFromReader (fragments frags) <> Return (Some r, None).
Proof. intros Hi. by apply (readLoop_no_line frags []). Qed.

Lemma request_line_must_fit_witness :
  RequestFromReader
    (fragments [repeat "a"%char 1024; crlf ++ to_bytes "Host: x" ++ crlf ++ crlf])
  <> Return (Some host_request, None).
Proof.
  apply (request_line_must_fit
           [repeat "a"%char 1024; crlf ++ to_bytes "Host: x" ++ crlf ++ crlf]).
  vm_compute. reflexivity.
Defined.

(** ** Request lines *)

Lemma Index_first_none s i :
  Index s SEPARATOR = Some i -> Index (firstn i s) SEPARATOR = None.
Proof.
  revert i; induction s as [|c s IH]; intros i; [done|].
  rewrite Index_cons.
  destruct (HasPrefix (c :: s) SEPARATOR) eqn:E; [by intros [= <-]|].
  destruct (Index s SEPARATOR) as [j|] eqn:Ej; [|done]. intros [= <-].
  cbn [firstn]. rewrite Index_cons, (IH j eq_refl).
  destruct (HasPrefix (c :: firstn j s) SEPARATOR) eqn:E'; [|done].
  apply (HasPrefix_app _ _ (skipn j s)) in E'.
  rewrite <- app_comm_cons, take_drop in E'. congruence.
Qed.

Lemma genSplit_none k s sep : Index s sep = None -> genSplit k s sep = [s].
Proof. intros E. destruct k; simpl; [done|]. by rewrite E. Qed.

Lemma genSplit_byte_inv k s (c : ascii) a x l :
  genSplit k s [c] = a :: x :: l ->
  ~ In c a /\
  exists k' rest, s = a ++ c :: rest /\ genSplit k' rest [c] = x :: l.
Proof.
  destruct k; simpl; [done|].
  destruct (Index s [c]) as [m|] eqn:E; [|done]. intros [= <- H].
  split; [by apply Index_byte_Some|].
  exists k, (skipn (m + 1) s). split; [|done]. by apply Index_split in E.
Qed.

Lemma Split_three (a b c : bytes) :
  ~ In " "%char a -> ~ In " "%char b -> ~ In " "%char c ->
  Split (a ++ " "%char :: b ++ " "%char :: c) (to_bytes " ") = [a; b; c].
Proof.
  intros Ha Hb Hc. unfold Split. change (to_bytes " ") with [" "%char].
  rewrite length_app. cbn [length]. rewrite length_app. cbn [length].
  replace (length a + S (length b + S (length c)))
    with (S (S (length a + length b + length c))) by lia.
  cbn [genSplit]. rewrite (Index_byte_first " " a) by done.
  rewrite take_app_length.
  replace (length a + length [" "%char]) with (length (a ++ [" "%char]))
    by (by rewrite length_app).
  change (a ++ " "%char :: b ++ " "%char :: c)
    with (a ++ [" "%char] ++ (b ++ " "%char :: c)).
  rewrite app_assoc, drop_app_length.
  rewrite (Index_byte_first " " b) by done.
  rewrite take_app_length.
  replace (length b + length [" "%char]) with (length (b ++ [" "%char]))
    by (by rewrite length_app).
  change (b ++ " "%char :: c) with (b ++ [" "%char] ++ c).
  rewrite app_assoc, drop_app_length.
  by rewrite genSplit_none by (by apply Index_byte_none).
Qed.

Lemma request_line_shape (b : bytes) (rl : RequestLine) (n : nat) :
  parseRequestLine b = (Some rl, n, None) <->
  exists method target rest,
    b = method ++ " "%char :: target ++ to_bytes " HTTP/1.1"
        ++ SEPARATOR ++ rest /\
    ~ In " "%char method /\ ~ In " "%char target /\
    Index (method ++ " "%char :: target ++ to_bytes " HTTP/1.1") SEPARATOR
    = None /\
    rl = {| HttpVersion := "1.1"; RequestTarget := to_string target;
            Method := to_string method; RequestLine_Body := "" |} /\
    n = length method + length target + 12.
Proof.
  split.
  - unfold parseRequestLine.
    destruct (Index b SEPARATOR) as [idx|] eqn:Hidx; [|done]. cbv zeta.
    destruct (Split (firstn idx b) (to_bytes " "))
      as [|a [|b0 [|c [|d l]]]] eqn:Hparts; try done.
    cbn [length Nat.eqb negb nth].
    destruct (Split c (to_bytes "/")) as [|h0 [|h1 [|h2 l]]] eqn:Hs; try done.
    cbn [length Nat.eqb negb nth orb].
    destruct (String.eqb (to_string h0) "HTTP") eqn:E0; [|done].
    destruct (String.eqb (to_string h1) "1.1") eqn:E1; [|done].
    cbn [negb]. intros [= <- <-].
    apply String.eqb_eq in E0, E1. rewrite E1.
    apply (to_string_inj h0 (to_bytes "HTTP")) in E0.
    apply (to_string_inj h1 (to_bytes "1.1")) in E1.
    apply genSplit_pair in Hs. subst h0 h1.
    unfold Split in Hparts. change (to_bytes " ") with [" "%char] in Hparts.
    apply genSplit_byte_inv in Hparts as (Ha & k1 & rest1 & Hl1 & Hparts).
    apply genSplit_byte_inv in Hparts as (Hb & k2 & rest2 & Hl2 & Hparts).
    apply genSplit_single in Hparts. subst c rest1.
    pose proof (Index_first_none _ _ Hidx) as Hnone.
    pose proof (Index_split _ _ _ Hidx) as Hb0.
    pose proof (Index_bound _ _ _ Hidx) as Hbound.
    rewrite Hl1 in Hb0, Hnone. subst rest2.
    exists a, b0, (skipn (idx + length SEPARATOR) b).
    assert (idx = length a + length b0 + 10) as Hlen.
    { apply (f_equal (@length _)) in Hl1.
      rewrite length_take, length_app in Hl1. cbn [length] in Hl1.
      rewrite length_app in Hl1. simpl in Hl1, Hbound. lia. }
    repeat split; try done.
    + etrans; [exact Hb0|].
      repeat (rewrite <- app_assoc || rewrite <- app_comm_cons). done.
    + simpl. lia.
  - intros (method & target & rest & -> & Hm & Ht & Hnone & -> & ->).
    unfold parseRequestLine.
    set (line := method ++ " "%char :: target ++ to_bytes " HTTP/1.1") in *.
    replace (method ++ " "%char :: target ++ to_bytes " HTTP/1.1"
             ++ SEPARATOR ++ rest)
      with (line ++ [CR; LF] ++ rest)
      by (subst line;
          repeat (rewrite <- app_assoc || rewrite <- app_comm_cons); done).
    change SEPARATOR with [CR; LF] in *.
    rewrite (Index_line line rest Hnone). cbv zeta.
    rewrite take_app_length.
    subst line.
    change (to_bytes " HTTP/1.1") with (" "%char :: to_bytes "HTTP/1.1").
    rewrite (Split_three method target (to_bytes "HTTP/1.1")); try done;
      [|vm_compute; intuition discriminate].
    cbn [length Nat.eqb negb nth].
    replace (Split (to_bytes "HTTP/1.1") (to_bytes "/"))
      with [to_bytes "HTTP"; to_bytes "1.1"] by reflexivity.
    cbn [length Nat.eqb negb nth orb to_string to_bytes
         list_ascii_of_string string_of_list_ascii String.eqb Ascii.eqb
         Bool.eqb].
    f_equal. f_equal.
    rewrite length_app. cbn [length]. rewrite length_app. simpl. lia.
Qed.

(** X20. The request lines that [parseRequestLine] accepts are those made
    of a method, a space, a target, a space, [HTTP/1.1] and CRLF, where
    method and target hold no space (either may be empty) and the line no
    CRLF; the count is that of the line with its CRLF, and the version
    stored is [1.1]. *)
Theorem request_lines (b : bytes) (rl : RequestLine) (n : nat) :
  parseRequestLine b = (Some rl, n, None) <->
  exists method target rest,
    b = method ++ " "%char :: target ++ to_bytes " HTTP/1.1"
        ++ SEPARATOR ++ rest /\
    ~ In " "%char method /\ ~ In " "%char target /\
    Index (method ++ " "%char :: target ++ to_bytes " HTTP/1.1") SEPARATOR
    = None /\
    rl = {| HttpVersion := "1.1"; RequestTarget := to_string target;
            Method := to_string method; RequestLine_Body := "" |} /\
    n = length method + length target + 12.
Proof. apply request_line_shape. Qed.

(** ** The content length *)

Lemma digits_all acc s z :
  digits acc s = Some z -> Forall (fun c => digit c <> None) s.
Proof.
  revert acc; induction s as [|c s IH]; intros acc; simpl; [done|].
  destruct (digit c) as [d|] eqn:E; [|done].
  intros H%IH. constructor; [congruence|done].
Qed.

Lemma Atoi_comma s : In ","%char (to_bytes s) -> Atoi s = None.
Proof.
  unfold Atoi. destruct (to_bytes s) as [|c l]; [done|].
  assert (forall acc l', In ","%char l' -> digits acc l' = None) as Hd.
  { intros acc l' Hin. destruct (digits acc l') as [z|] eqn:E; [|done].
    apply digits_all in E. rewrite List.Forall_forall in E.
    by destruct (E _ Hin). }
  intros [->|Hin].
  - done.
  - destruct (Ascii.eqb c "-"); [|destruct (Ascii.eqb c "+")].
    + destruct l; [done|]. by rewrite Hd.
    + destruct l; [done|]. by rewrite Hd.
    + by rewrite Hd by (by right).
Qed.

Lemma to_bytes_app a b : to_bytes (a +:+ b) = to_bytes a ++ to_bytes b.
Proof.
  induction a as [|c a IH]; [done|].
  rewrite string_app_cons. simpl. by rewrite IH.
Qed.

(** X21. A second [Content-Length] line undoes the first: the two values
    are joined by a comma, the joined value is not a number, and the
    content length of the request reads as zero, whatever the values; the
    parser then takes no body. *)
Theorem repeated_content_length_reads_zero
        (h : Headers) (name first second : string) :
  differ_only_in_case "content-length" name = true ->
  Get h "content-length" = Some first ->
  getInt (Set_ h name second) "content-length" 0 = 0%Z.
Proof.
  intros Hn%ToLower_fold Hg. unfold getInt.
  rewrite (Get_Set_old h "content-length" name first second Hg Hn).
  rewrite Atoi_comma; [done|].
  rewrite !to_bytes_app. apply in_or_app. right. by left.
Qed.

Lemma repeated_content_length_reads_zero_witness :
  getInt (Set_ (Set_ NewHeaders "Content-Length" "5") "content-length" "5")
         "content-length" 0 = 0%Z.
Proof.
  apply (repeated_content_length_reads_zero
           (Set_ NewHeaders "Content-Length" "5") "content-length" "5" "5");
    reflexivity.
Defined.

End ParserMore.

(** * The hexadecimal rendering of [cmd/httpServer] *)

Module HexFacts.
Import GoLib GoLibFacts httpServer Notions.

Lemma toStr_acc l acc :
  fold_left (fun out b => (out +:+ Sprintf_02x b)%string) l acc
  = (acc +:+ toStr l)%string.
Proof.
  unfold toStr. revert acc; induction l as [|b l IH]; intros acc; simpl.
  - by rewrite string_app_nil_r.
  - rewrite string_app_nil_l.
    rewrite (IH (acc +:+ Sprintf_02x b)%string), (IH (Sprintf_02x b)).
    by rewrite string_app_assoc.
Qed.

Lemma toStr_cons b l : toStr (b :: l) = (Sprintf_02x b +:+ toStr l)%string.
Proof. unfold toStr at 1. simpl. rewrite string_app_nil_l. apply toStr_acc. Qed.

Lemma Sprintf_02x_back b :
  match hexValue (hexDigit (nat_of_ascii b / 16)),
        hexValue (hexDigit (nat_of_ascii b mod 16)) with
  | Some h, Some l => ascii_of_nat (16 * h + l) = b
  | _, _ => False
  end.
Proof. by destruct b as [[] [] [] [] [] [] [] []]. Qed.

(** X22. [toStr] writes two characters for every byte, each of them one of
    [0123456789abcdef]. *)
Theorem toStr_is_hex (bytes : list ascii) :
  String.length (toStr bytes) = 2 * length bytes /\
  Forall (fun c => hexValue c <> None) (to_bytes (toStr bytes)).
Proof.
  induction bytes as [|b l [IH1 IH2]]; [by split|].
  rewrite toStr_cons. unfold Sprintf_02x.
  rewrite !string_app_cons, string_app_nil_l.
  cbn [String.length to_bytes list_ascii_of_string length].
  split; [rewrite IH1; lia|].
  pose proof (Sprintf_02x_back b) as Hb.
  destruct (hexValue (hexDigit (nat_of_ascii b / 16))) eqn:E1; [|done].
  destruct (hexValue (hexDigit (nat_of_ascii b mod 16))) eqn:E2; [|done].
  constructor; [congruence|]. constructor; [congruence|exact IH2].
Qed.

(** X23. [toStr] loses nothing: the bytes are read back from its result,
    two hexadecimal digits for each, and different byte strings have
    different renderings. *)
Theorem toStr_reads_back (bytes bytes' : list ascii) :
  fromHex (toStr bytes) = Some bytes /\
  (toStr bytes = toStr bytes' -> bytes = bytes').
Proof.
  assert (forall l, fromHex (toStr l) = Some l) as Hback.
  { induction l as [|b l IH]; [done|].
    rewrite toStr_cons. unfold Sprintf_02x.
    rewrite !string_app_cons, string_app_nil_l. cbn [fromHex]. rewrite IH.
    pose proof (Sprintf_02x_back b) as Hb.
    destruct (hexValue (hexDigit (nat_of_ascii b / 16))) eqn:E1; [|done].
    destruct (hexValue (hexDigit (nat_of_ascii b mod 16))) eqn:E2; [|done].
    by rewrite Hb. }
  split; [apply Hback|].
  intros E. apply (f_equal fromHex) in E. rewrite !Hback in E. congruence.
Qed.

End HexFacts.

(** * The first revision of [parseRequestLine] *)

Module FirstRevision.
Import GoLib GoLibFacts request Notions RequestFacts.
Import HeaderStoreMore ParserMore.

Lemma Index_byte_None_inv (c : ascii) s : Index s [c] = None -> ~ In c s.
Proof.
  induction s as [|d s IH]; [by intros _ []|].
  rewrite Index_cons. simpl.
  destruct (Ascii.eqb_spec d c) as [->|Hd]; [done|]. simpl.
  destruct (Index s [c]) eqn:E; [done|]. intros _ [H|H]; [done|by apply IH].
Qed.

(** With a cut for every byte of the input, no piece holds the
    separator. *)
Lemma genSplit_byte_pieces k s (c : ascii) :
  length s <= k -> Forall (fun p => ~ In c p) (genSplit k s [c]).
Proof.
  revert s; induction k as [|k IH]; intros s Hk.
  - destruct s; [|simpl in Hk; lia]. constructor; [by intros []|constructor].
  - simpl. destruct (Index s [c]) as [m|] eqn:E.
    + constructor; [by apply Index_byte_Some|]. apply IH.
      pose proof (Index_bound _ _ _ E) as Hb. rewrite length_drop.
      simpl in *. lia.
    + constructor; [by apply Index_byte_None_inv|constructor].
Qed.

(** X24. The request lines that the first revision accepts are those made
    of three pieces without a space, with one space between them, before
    the first CRLF; the version is not looked at, and any of the pieces may
    be empty. It returns the pieces as they are, and as the rest of the
    message what follows that CRLF. *)
Theorem first_revision_lines
        (b : string) (rl : request0.RequestLine) (rest : string) :
  request0.parseRequestLine b = (Some rl, rest, None) <->
  exists method target version,
    to_bytes b = method ++ " "%char :: target ++ " "%char :: version
                 ++ [CR; LF] ++ to_bytes rest /\
    ~ In " "%char method /\ ~ In " "%char target /\ ~ In " "%char version /\
    Index (method ++ " "%char :: target ++ " "%char :: version) [CR; LF]
    = None /\
    rl = {| request0.Method := to_string method;
            request0.RequestTarget := to_string target;
            request0.HttpVersion := to_string version |}.
Proof.
  unfold request0.parseRequestLine.
  change (to_bytes request0.SEPARATOR) with [CR; LF].
  change (String.length request0.SEPARATOR) with 2.
  split.
  - destruct (Index (to_bytes b) [CR; LF]) as [idx|] eqn:Hidx; [|done].
    cbv zeta. rewrite to_bytes_to_string.
    pose proof (genSplit_byte_pieces
                  (length (firstn idx (to_bytes b)))
                  (firstn idx (to_bytes b)) " "%char (le_n _)) as Hpieces.
    change [" "%char] with (to_bytes " ") in Hpieces.
    fold (Split (firstn idx (to_bytes b)) (to_bytes " ")) in Hpieces.
    destruct (Split (firstn idx (to_bytes b)) (to_bytes " "))
      as [|a [|b0 [|c [|d l]]]] eqn:Hparts; try done.
    cbn [map length Nat.eqb negb nth]. intros [= <- <-].
    apply Forall_cons in Hpieces as [Ha Hpieces].
    apply Forall_cons in Hpieces as [Hb0 Hpieces].
    apply Forall_cons in Hpieces as [Hc _].
    unfold Split in Hparts. change (to_bytes " ") with [" "%char] in Hparts.
    apply genSplit_byte_inv in Hparts as (_ & k1 & rest1 & Hl1 & Hparts).
    apply genSplit_byte_inv in Hparts as (_ & k2 & rest2 & Hl2 & Hparts).
    apply genSplit_single in Hparts. subst c rest1.
    pose proof (Index_first_none _ _ Hidx) as Hnone.
    pose proof (Index_split _ _ _ Hidx) as Hb.
    rewrite Hl1 in Hb, Hnone. change SEPARATOR with [CR; LF] in Hnone.
    exists a, b0, rest2. rewrite to_bytes_to_string.
    repeat split; try done.
    etrans; [exact Hb|].
    repeat (rewrite <- app_assoc || rewrite <- app_comm_cons). done.
  - intros (method & target & version & Hb & Hm & Ht & Hv & Hnone & ->).
    set (line := method ++ " "%char :: target ++ " "%char :: version) in *.
    assert (to_bytes b = line ++ [CR; LF] ++ to_bytes rest) as Hb'.
    { rewrite Hb. subst line.
      repeat (rewrite <- app_assoc || rewrite <- app_comm_cons). done. }
    rewrite Hb', (Index_line line _ Hnone). cbv zeta.
    rewrite take_app_length, to_bytes_to_string.
    subst line. rewrite (Split_three method target version) by done.
    cbn [map length Nat.eqb negb nth].
    replace (length (method ++ " "%char :: target ++ " "%char :: version) + 2)
      with (length ((method ++ " "%char :: target ++ " "%char :: version)
                    ++ [CR; LF]))
      by (rewrite (length_app _ [CR; LF]); simpl; lia).
    rewrite (app_assoc _ [CR; LF]), drop_app_length.
    by rewrite to_string_to_bytes.
Qed.

(** X25. What the parser accepts as a request line the first revision
    accepted too, with the same method and target, the version token kept
    whole, and the bytes after the line as the rest. *)
Theorem first_revision_accepts_more (b : string) (rl : RequestLine) (n : nat) :
  parseRequestLine (to_bytes b) = (Some rl, n, None) ->
  request0.parseRequestLine b =
  (Some {| request0.Method := Method rl;
           request0.RequestTarget := RequestTarget rl;
           request0.HttpVersion := ("HTTP/" +:+ HttpVersion rl)%string |},
   to_string (skipn n (to_bytes b)), None).
Proof.
  intros (method & target & rest & Hb & Hm & Ht & Hnone & -> & ->)%request_line_shape.
  unfold request0.parseRequestLine.
  change (to_bytes request0.SEPARATOR) with [CR; LF].
  change (String.length request0.SEPARATOR) with 2.
  change SEPARATOR with [CR; LF] in *.
  set (line := method ++ " "%char :: target ++ to_bytes " HTTP/1.1") in *.
  assert (to_bytes b = line ++ [CR; LF] ++ rest) as Hb'.
  { rewrite Hb. subst line.
    repeat (rewrite <- app_assoc || rewrite <- app_comm_cons). done. }
  rewrite Hb', (Index_line line rest Hnone). cbv zeta.
  rewrite take_app_length, to_bytes_to_string.
  assert (length line = length method + length target + 10) as Hlen.
  { subst line. rewrite length_app. cbn [length]. rewrite length_app.
    simpl. lia. }
  replace (length method + length target + 12) with (length line + 2) by lia.
  subst line.
  change (to_bytes " HTTP/1.1") with (" "%char :: to_bytes "HTTP/1.1").
  rewrite (Split_three method target (to_bytes "HTTP/1.1"));
    [|done|done|vm_compute; intuition discriminate].
  cbn [map length Nat.eqb negb nth HttpVersion RequestTarget Method].
  rewrite <- drop_drop, drop_app_length. simpl drop.
  done.
Qed.

Lemma first_revision_accepts_more_witness :
  request0.parseRequestLine
    (to_string (to_bytes "GET /a HTTP/1.1" ++ [CR; LF] ++ to_bytes "Host: x"))
  = (Some {| request0.Method := "GET"; request0.RequestTarget := "/a";
             request0.HttpVersion := "HTTP/1.1" |}, "Host: x"%string, None).
Proof.
  apply (first_revision_accepts_more
           (to_string (to_bytes "GET /a HTTP/1.1" ++ [CR; LF] ++ to_bytes "Host: x"))
           {| HttpVersion := "1.1"; RequestTarget := "/a"; Method := "GET";
              RequestLine_Body := "" |} 17).
  reflexivity.
Defined.

End FirstRevision.

(** * The scenarios of the specification *)

Module Scenarios.
Import GoLib headers request Notions Samples.

(** C6. Parsing the complete input ["GET /a HTTP/1.1\r\nHost: x\r\n\r\n"]
    yields method [GET], target [/a], version [1.1], the single header
    [host: x], an empty body and the state [StateDone]; all 28 bytes are
    consumed, and [RequestFromReader] hands that request to its caller. *)
Theorem get_host_parses :
  parse newRequest get_host = (host_request, Return (28, None)) /\
  RequestFromReader [(get_host, None)] = Return (Some host_request, None).
Proof. split; vm_compute; reflexivity. Qed.

(** C1, where the code departs from it. The request line ["GET /a\r\n"] has
    two tokens: [parseRequestLine] reports the malformed request line, but
    [parse] drops that error, moves to [StateError] and returns [(0, nil)],
    and [RequestFromReader] leaves its loop and hands the request in
    [StateError] to its caller with a [nil] error. *)
Theorem request_line_error_is_dropped :
  parseRequestLine get_two_tokens
  = (None, 0, Some ERROR_MALFORMED_REQUEST_LINE) /\
  parse newRequest get_two_tokens = (refused, Return (0, None)) /\
  state refused = StateError /\
  RequestFromReader [(get_two_tokens, None)] = Return (Some refused, None).
Proof. repeat split; vm_compute; reflexivity. Qed.

(** C3, where the code departs from it. For ["GET /a HTTP/2.0\r\n\r\n"]
    [parseRequestLine] reports the error of a malformed request line, which
    is not the error of an unsupported version; that error is returned for
    no input at all. The failure comes before any header is stored. *)
Theorem http2_is_reported_as_malformed :
  parseRequestLine get_http2
  = (None, 0, Some ERROR_MALFORMED_REQUEST_LINE) /\
  ERROR_MALFORMED_REQUEST_LINE <> ERROR_UNSUPPORTED_HTTP_VERSION /\
  (forall b, snd (parseRequestLine b) <> Some ERROR_UNSUPPORTED_HTTP_VERSION) /\
  parse newRequest get_http2 = (refused, Return (0, None)) /\
  headers (Headers_ refused) = ∅.
Proof.
  split; [vm_compute; reflexivity|].
  split; [discriminate|].
  split; [apply Parser.parseRequestLine_never_unsupported|].
  split; vm_compute; reflexivity.
Qed.

End Scenarios.
